(** * Cross-language API surface audit and reference compatibility check

    A shallow embedding of [scripts/audit_api_surface.py] (surface audit,
    "Mode A") and [scripts/check_api_compatibility.py] (reference
    compatibility, "Mode B"), and the properties of the comparison engine
    stated over it; then the request handler of the mock server
    ([tests/mock-server/server.py]) and the cross-language runner
    ([tests/cross-lang/run-tests.py]) that the SDK tests rely on.

    Conventions of the embedding.
    - A Python [str] is a [string]; source texts and declared names are
      ASCII, so one character is one code point.  Lines written to standard
      output are strings too; the symbols of the program's messages that lie
      outside ASCII appear in them in their UTF-8 encoding.  The texts of a
      request to the mock server may hold any character and are carried in
      UTF-8 as well; [Mock.code_points] reads their characters.
    - A [set] of names is a [gset string]; a [dict] is an association list in
      insertion order with unique keys ([dict_set] keeps it so).
    - [print] appends a line to the output carried next to the result.
    - A file is read through a file system [string -> option string]; [None]
      is a path for which [Path.exists()] is false.
    - The regular expressions of the two scripts are given as terms of
      [regex], matched by a backtracking matcher that follows the search
      order of Python's [re] module.
    - A JSON value is a term of [Mock.json]; a call that may raise returns
      an [option], [None] standing for the exception. *)

From Stdlib Require Import Ascii String SpecFloat.
From stdpp Require Import gmap strings list sorting pretty.

Local Open Scope string_scope.
Local Open Scope list_scope.

(** ** Characters *)

Module Char.

Definition between (lo hi : N) (c : ascii) : bool :=
  ((lo <=? N_of_ascii c) && (N_of_ascii c <=? hi))%N.

(** [[a-z]], [[A-Z]] and [[0-9]]. *)
Definition is_lower (c : ascii) : bool := between 97 122 c.
Definition is_upper (c : ascii) : bool := between 65 90 c.
Definition is_digit (c : ascii) : bool := between 48 57 c.

(** [str.isspace] and the class [\s]: tab, line feed, vertical tab, form
    feed, carriage return, the four separators 28..31 and the space. *)
Definition is_space (c : ascii) : bool := between 9 13 c || between 28 32 c.

(** The class [\w]: letters, digits and the underscore. *)
Definition is_word (c : ascii) : bool :=
  is_lower c || is_upper c || is_digit c || Ascii.eqb c "_".

(** The class [.]: anything but a line feed. *)
Definition is_dot (c : ascii) : bool := negb (Ascii.eqb c "010").

(** [str.lower] on one character. *)
Definition lower (c : ascii) : ascii :=
  if is_upper c then ascii_of_N (N_of_ascii c + 32) else c.

End Char.

(** ** Strings *)

(** [s.lower()] *)
Fixpoint str_lower (s : string) : string :=
  match s with
  | "" => ""
  | String c s' => String (Char.lower c) (str_lower s')
  end.

(** [s.startswith('_')] *)
Definition starts_with_underscore (s : string) : bool :=
  match s with
  | String c _ => Ascii.eqb c "_"
  | "" => false
  end.

(** [s.lstrip()], [s.rstrip()] and [s.strip()] *)
Fixpoint lstrip (s : string) : string :=
  match s with
  | String c s' => if Char.is_space c then lstrip s' else s
  | "" => ""
  end.

Fixpoint rstrip (s : string) : string :=
  match s with
  | "" => ""
  | String c s' =>
      match rstrip s' with
      | "" => if Char.is_space c then "" else String c ""
      | r => String c r
      end
  end.

Definition strip (s : string) : string := rstrip (lstrip s).

(** Truth value of a string: non-empty. *)
(** Truth value of a list: non-empty. *)
Definition truthy_list {A} (l : list A) : bool :=
  match l with [] => false | _ => true end.

Definition truthy (s : string) : bool :=
  match s with "" => false | _ => true end.

(** [s.split(sep)] for a one-character separator: [n] separators give
    [n + 1] pieces, and the empty string gives one empty piece. *)
Fixpoint split (sep : ascii) (s : string) : list string :=
  match s with
  | "" => [""]
  | String c s' =>
      if Ascii.eqb c sep then "" :: split sep s'
      else match split sep s' with
           | p :: ps => String c p :: ps
           | [] => [String c ""]
           end
  end.

(** [sep.join(l)] for a one-character separator. *)
Fixpoint join (sep : ascii) (l : list string) : string :=
  match l with
  | [] => ""
  | [p] => p
  | p :: l' => p +:+ String sep (join sep l')
  end.

(** [c * n] for a one-character string [c]. *)
Fixpoint str_repeat (c : ascii) (n : nat) : string :=
  match n with
  | O => ""
  | S n' => String c (str_repeat c n')
  end.

(** Format specifications [{s:w}] (a string, padded on the right) and
    [{n:w}] (a number, padded on the left). *)
Definition fmt_str (w : nat) (s : string) : string :=
  s +:+ str_repeat " " (w - String.length s).

Definition fmt_int (w : nat) (n : nat) : string :=
  let d := pretty n in str_repeat " " (w - String.length d) +:+ d.

(** [sorted(...)] on strings: the order of Python's [str] comparison. *)
Definition sorted (l : list string) : list string := merge_sort String.le l.

(** ** Regular expressions *)

Module Re.

(** The fragment of the pattern language the two scripts use.  Repetition
    is only ever applied to a single-character item, which is what [Rep]
    offers: [Rep greedy least p] is the starred item ([least = 0]) or the
    plussed item ([least = 1]), lazy when [greedy] is false.  In the
    comments below patterns are shown with their items spaced out. *)
Inductive regex : Type :=
| Eps
| Chr (c : ascii)
| Cls (p : ascii → bool)
| Bol
| Cat (r1 r2 : regex)
| Alt (r1 r2 : regex)
| Opt (r : regex)
| Rep (greedy : bool) (least : nat) (p : ascii → bool)
| Grp (n : nat) (r : regex).

(** A position in the subject: the character before it (for [^]), the
    text from it on, and the groups captured so far (latest first). *)
Record mstate : Type := MState {
  m_prev : option ascii;
  m_rest : string;
  m_caps : list (nat * string)
}.

Definition step (a : ascii) (s' : string) (st : mstate) : mstate :=
  MState (Some a) s' (m_caps st).

(** The text consumed between two positions of one subject. *)
Definition consumed (from to : string) : string :=
  substring 0 (String.length from - String.length to) from.
Global Arguments consumed : simpl never.

Definition capture (n : nat) (st st' : mstate) : mstate :=
  MState (m_prev st') (m_rest st')
         ((n, consumed (m_rest st) (m_rest st')) :: m_caps st').

(** Star, plus and their lazy forms, with the continuation [k] run at
    each stopping point in the order the backtracking matcher tries them:
    longest first when greedy, shortest first when lazy. *)
Fixpoint rep (greedy : bool) (p : ascii → bool)
    (k : mstate → option mstate) (least : nat)
    (prev : option ascii) (caps : list (nat * string)) (s : string)
    : option mstate :=
  let here :=
    match least with
    | O => k (MState prev s caps)
    | S _ => None
    end in
  match s with
  | "" => here
  | String a s' =>
      if p a then
        if greedy then
          match rep greedy p k (pred least) (Some a) caps s' with
          | Some r => Some r
          | None => here
          end
        else
          match here with
          | Some r => Some r
          | None => rep greedy p k (pred least) (Some a) caps s'
          end
      else here
  end.

(** The matcher, in continuation-passing style: [rmatch r k st] matches
    [r] at [st] and hands every way of doing so to [k], in priority
    order, until [k] accepts one. *)
Fixpoint rmatch (r : regex) (k : mstate → option mstate) (st : mstate)
    : option mstate :=
  match r with
  | Eps => k st
  | Chr c =>
      match m_rest st with
      | String a s' => if Ascii.eqb a c then k (step a s' st) else None
      | "" => None
      end
  | Cls p =>
      match m_rest st with
      | String a s' => if p a then k (step a s' st) else None
      | "" => None
      end
  | Bol =>
      match m_prev st with
      | None => k st
      | Some a => if Ascii.eqb a "010" then k st else None
      end
  | Cat r1 r2 => rmatch r1 (rmatch r2 k) st
  | Alt r1 r2 =>
      match rmatch r1 k st with
      | Some r => Some r
      | None => rmatch r2 k st
      end
  | Opt r1 =>
      match rmatch r1 k st with
      | Some r => Some r
      | None => k st
      end
  | Rep greedy least p =>
      rep greedy p k least (m_prev st) (m_caps st) (m_rest st)
  | Grp n r1 => rmatch r1 (λ st', k (capture n st st')) st
  end.

(** A match object: [group(0)] and the numbered groups. *)
Record rmatch_obj : Type := MatchObj {
  m_whole : string;
  m_groups : list (nat * string)
}.

(** [match.group(n)]; [None] for a group that took no part. *)
Fixpoint group (n : nat) (caps : list (nat * string)) : option string :=
  match caps with
  | [] => None
  | (i, s) :: caps' => if Nat.eqb i n then Some s else group n caps'
  end.

(** One attempt at one position.  With [must_advance] an empty match is
    refused, as the search does right after an empty match. *)
Definition match_at (r : regex) (must_advance : bool)
    (prev : option ascii) (s : string) : option rmatch_obj :=
  let final st' :=
    if must_advance && Nat.eqb (String.length (m_rest st')) (String.length s)
    then None else Some st' in
  match rmatch r final (MState prev s []) with
  | Some st' => Some (MatchObj (consumed s (m_rest st')) (m_caps st'))
  | None => None
  end.

Global Arguments match_at : simpl never.

(** The subject cut into the characters outside every match and the
    matches, left to right. *)
Inductive piece : Type :=
| Plain (c : ascii)
| Hit (m : rmatch_obj).

(** The search loop shared by [finditer] and [sub]: at each position not
    inside the previous match, try to match; [skip] counts the characters
    still inside it. *)
Fixpoint scan (r : regex) (skip : nat) (prev : option ascii) (s : string)
    : list piece :=
  match s with
  | "" =>
      match skip with
      | S _ => []
      | O =>
          match match_at r false prev "" with
          | Some m => [Hit m]
          | None => []
          end
      end
  | String a s' =>
      match skip with
      | S n => scan r n (Some a) s'
      | O =>
          match match_at r false prev s with
          | None => Plain a :: scan r 0 (Some a) s'
          | Some m =>
              match String.length (m_whole m) with
              | S n => Hit m :: scan r n (Some a) s'
              | O =>
                  Hit m ::
                  match match_at r true prev s with
                  | Some m' =>
                      Hit m' ::
                      scan r (pred (String.length (m_whole m'))) (Some a) s'
                  | None => Plain a :: scan r 0 (Some a) s'
                  end
              end
          end
      end
  end.

(** [re.finditer(pattern, content)] *)
Definition finditer (r : regex) (s : string) : list rmatch_obj :=
  omap (λ p, match p with Hit m => Some m | Plain _ => None end)
       (scan r 0 None s).

(** Replacement templates: literal characters and group references. *)
Inductive titem : Type :=
| TChr (c : ascii)
| TGrp (n : nat).

Fixpoint expand (t : list titem) (m : rmatch_obj) : string :=
  match t with
  | [] => ""
  | TChr c :: t' => String c (expand t' m)
  | TGrp n :: t' => default "" (group n (m_groups m)) +:+ expand t' m
  end.

Fixpoint rebuild (t : list titem) (ps : list piece) : string :=
  match ps with
  | [] => ""
  | Plain c :: ps' => String c (rebuild t ps')
  | Hit m :: ps' => expand t m +:+ rebuild t ps'
  end.

(** [re.sub(pattern, repl, s)] *)
Definition sub (r : regex) (t : list titem) (s : string) : string :=
  rebuild t (scan r 0 None s).

(** A literal word of the pattern, character by character, and the
    concatenation of a list of items. *)
Fixpoint lit (w : string) : regex :=
  match w with
  | "" => Eps
  | String c w' => Cat (Chr c) (lit w')
  end.

Fixpoint seq (rs : list regex) : regex :=
  match rs with
  | [] => Eps
  | r :: rs' => Cat r (seq rs')
  end.

(** [match.group(n)] as a string, for a group that takes part in every
    match of its pattern. *)
Definition group_str (n : nat) (m : rmatch_obj) : string :=
  default "" (group n (m_groups m)).

End Re.

Import Re.

(** ** Output and dictionaries *)

(** A computation that prints: the lines written, then the result. *)
Definition io (A : Type) : Type := (list string * A)%type.

Global Instance io_ret : MRet io := λ A x, ([], x).
Global Instance io_bind : MBind io := λ A B f m,
  let '(o1, a) := m in let '(o2, b) := f a in (o1 ++ o2, b).

Definition print (line : string) : io unit := ([line], tt).

Definition output {A} (m : io A) : list string := fst m.
Definition result {A} (m : io A) : A := snd m.

(** A sequential loop [for x in l: acc = body(acc, x)] that may print. *)
Fixpoint for_each {A S} (l : list A) (body : S → A → io S) (acc : S) : io S :=
  match l with
  | [] => mret acc
  | x :: l' => acc' ← body acc x; for_each l' body acc'
  end.

(** A [dict] with [str] keys: the items in insertion order. *)
Abbreviation dict V := (list (string * V)).

Section dict.
Context {V : Type}.

(** [d.get(k)] *)
Fixpoint dict_get (k : string) (d : dict V) : option V :=
  match d with
  | [] => None
  | (k', v) :: d' => if String.eqb k' k then Some v else dict_get k d'
  end.

(** [d[k] = v]: a key already there keeps its place. *)
Fixpoint dict_set (k : string) (v : V) (d : dict V) : dict V :=
  match d with
  | [] => [(k, v)]
  | (k', v') :: d' =>
      if String.eqb k' k then (k', v) :: d' else (k', v') :: dict_set k v d'
  end.

Definition dict_keys (d : dict V) : list string := d.*1.
Definition dict_values (d : dict V) : list V := d.*2.
End dict.

(** A file system: the text at a path, if the path exists. *)
Definition filesystem : Type := string → option string.

(** ** The normalizer *)

(** The pattern  ( [a-z0-9] ) ( [A-Z] )  and the replacement  \1_\2 . *)
Definition lower_or_digit (c : ascii) : bool :=
  Char.is_lower c || Char.is_digit c.

Definition camel_boundary : regex :=
  Cat (Grp 1 (Cls lower_or_digit)) (Grp 2 (Cls Char.is_upper)).

Definition camel_repl : list titem := [TGrp 1; TChr "_"; TGrp 2].

(** ** Mode A: [scripts/audit_api_surface.py] *)

Module Audit.

Record config : Type := Config {
  file : string;
  pattern : regex;
  exclude : gset string;
  naming : string
}.

(** Character sets of the declaration patterns. *)
Definition lower_us (c : ascii) : bool :=
  Char.is_lower c || Ascii.eqb c "_".
Definition lower_digit_us (c : ascii) : bool :=
  Char.is_lower c || Char.is_digit c || Ascii.eqb c "_".
Definition alnum (c : ascii) : bool :=
  Char.is_lower c || Char.is_upper c || Char.is_digit c.
Definition other_than (x : ascii) (c : ascii) : bool := negb (Ascii.eqb c x).

Definition spaces1 : regex := Rep true 1 Char.is_space.
Definition spaces0 : regex := Rep true 0 Char.is_space.

(** The identifiers [a-z_][a-z0-9_]* , [a-z][a-zA-Z0-9]* and
    [A-Z][a-zA-Z0-9]* . *)
Definition snake_ident : regex :=
  Cat (Cls lower_us) (Rep true 0 lower_digit_us).
Definition camel_ident : regex :=
  Cat (Cls Char.is_lower) (Rep true 0 alnum).
Definition pascal_ident : regex :=
  Cat (Cls Char.is_upper) (Rep true 0 alnum).

(** python:  ^ \s+ def  ( [a-z_][a-z0-9_]* ) \( self *)
Definition python_pattern : regex :=
  seq [Bol; spaces1; lit "def "; Grp 1 snake_ident; lit "(self"].

(** typescript:  ^ \s+ (?: async \s+ )? ( [a-z][a-zA-Z0-9]* ) \s* \( *)
Definition typescript_pattern : regex :=
  seq [Bol; spaces1; Opt (Cat (lit "async") spaces1);
       Grp 1 camel_ident; spaces0; Chr "("].

(** java:  ^ \s* public \s+
    (?: CompletableFuture< [^>]+ > | String | void | Map< [^>]+ > )
    \s+ ( [a-z][a-zA-Z0-9]* ) \s* \( *)
Definition java_pattern : regex :=
  seq [Bol; spaces0; lit "public"; spaces1;
       Alt (seq [lit "CompletableFuture<"; Rep true 1 (other_than ">");
                 Chr ">"])
      (Alt (lit "String")
      (Alt (lit "void")
           (seq [lit "Map<"; Rep true 1 (other_than ">"); Chr ">"])));
       spaces1; Grp 1 camel_ident; spaces0; Chr "("].

(** php:  ^ \s* public \s+ function \s+ ( [a-z_][a-z0-9_]* ) \s* \( *)
Definition php_pattern : regex :=
  seq [Bol; spaces0; lit "public"; spaces1; lit "function"; spaces1;
       Grp 1 snake_ident; spaces0; Chr "("].

(** go:  ^ func \s+ \( [^)]+ \) \s+ ( [A-Z][a-zA-Z0-9]* ) \s* \( *)
Definition go_pattern : regex :=
  seq [Bol; lit "func"; spaces1; Chr "("; Rep true 1 (other_than ")");
       Chr ")"; spaces1; Grp 1 pascal_ident; spaces0; Chr "("].

(** dart:  ^ \s+ Future< [^>]+ > \s+ ( [a-z][a-zA-Z0-9]* ) \s* \( *)
Definition dart_pattern : regex :=
  seq [Bol; spaces1; lit "Future<"; Rep true 1 (other_than ">"); Chr ">";
       spaces1; Grp 1 camel_ident; spaces0; Chr "("].

Definition java_exclude : list string :=
  ["setBlockchain"; "getBlockchain"; "setVersion"; "getVersion";
   "setStart"; "getStart"; "setEnd"; "getEnd";
   "setNodeID"; "getNodeID"; "setAddress"; "getAddress";
   "setTransactionID"; "getTransactionID"; "setAssetName"; "getAssetName";
   "setBlockNumber"; "getBlockNumber"; "setCode"; "getCode";
   "setDomain"; "getDomain"; "setAsset"; "getAsset";
   "setNode"; "getNode"; "setInitialDate"; "getInitialDate";
   "setFinalDate"; "getFinalDate"; "setProject"; "getProject";
   "setRequest"; "getRequest"; "setTimestamp"; "getTimestamp";
   "setFrom"; "getFrom"; "setTo"; "getTo"; "setType"; "getType";
   "setPayload"; "getPayload"; "setNonce"; "getNonce";
   "setSignature"; "getSignature"; "setTransactionId"; "getTransactionId";
   "setId"; "getId"].

Definition SDK_CONFIGS : dict config :=
  [("python",
    Config "dist/circular-py/src/circular_protocol_api/client.py"
           python_pattern
           (list_to_set ["__init__"; "_make_request"; "_build_url"])
           "snake_case");
   ("typescript",
    Config "dist/circular-ts/src/index.ts"
           typescript_pattern
           (list_to_set ["constructor"])
           "camelCase");
   ("java",
    Config "dist/circular-java/src/main/java/io/circular/protocol/CircularProtocolAPI.java"
           java_pattern
           (list_to_set java_exclude)
           "camelCase");
   ("php",
    Config "dist/circular-php/src/CircularProtocolAPI.php"
           php_pattern
           (list_to_set ["__construct"])
           "snake_case");
   ("go",
    Config "dist/circular-go/circular_protocol.go"
           go_pattern
           ∅
           "PascalCase");
   ("dart",
    Config "dist/circular-dart/lib/circular_protocol.dart"
           dart_pattern
           ∅
           "camelCase")].

(** [normalize_name(name, from_case)] *)
Definition normalize_name (name : string) (from_case : string) : string :=
  if String.eqb from_case "snake_case" then name
  else if String.eqb from_case "camelCase"
          || String.eqb from_case "PascalCase"
  then str_lower (sub camel_boundary camel_repl name)
  else name.

(** The body of the loop over the matches in [extract_methods]. *)
Definition add_method (cfg : config) (methods : gset string)
    (m : rmatch_obj) : gset string :=
  let method := group_str 1 m in
  if bool_decide (method ∉ exclude cfg) && negb (starts_with_underscore method)
  then methods ∪ {[ normalize_name method (naming cfg) ]}
  else methods.

(** [extract_methods(lang, config)] *)
Definition extract_methods (fs : filesystem) (lang : string) (cfg : config)
    : io (gset string) :=
  match fs (file cfg) with
  | None =>
      _ ← print ("⚠️  " +:+ lang +:+ ": File not found - " +:+ file cfg);
      mret ∅
  | Some content =>
      mret (foldl (add_method cfg) ∅ (finditer (pattern cfg) content))
  end.

(** The first loop of [main]: extraction, one language after the other. *)
Definition extract_all (fs : filesystem) (configs : dict config)
    : io (dict (gset string)) :=
  for_each configs
    (λ all_methods '(lang, cfg),
       methods ← extract_methods fs lang cfg;
       _ ← print (fmt_str 12 lang +:+ " " +:+ fmt_int 3 (size methods)
                  +:+ " public methods");
       mret (dict_set lang methods all_methods))
    [].

(** The union of all the languages' sets. *)
Definition expected_surface (all_methods : dict (gset string))
    : gset string :=
  foldl (λ expected methods, expected ∪ methods) ∅ (dict_values all_methods).

(** [sorted(expected_methods - methods)] *)
Definition missing_of (expected methods : gset string) : list string :=
  sorted (elements (expected ∖ methods)).

(** The body of the second loop of [main], for one language. *)
Definition check_language (all_methods : dict (gset string))
    (expected : gset string) (has_issues : bool) (lang : string)
    : io bool :=
  let methods := default ∅ (dict_get lang all_methods) in
  let missing := missing_of expected methods in
  if truthy_list missing then
    _ ← print ("❌ " +:+ lang +:+ ": Missing "
               +:+ pretty (length missing) +:+ " methods");
    _ ← for_each (take 10 missing)
           (λ _ method, print ("     - " +:+ method)) tt;
    _ ← (if decide (10 < length missing)
         then print ("     ... and " +:+ pretty (length missing - 10)
                     +:+ " more")
         else mret tt);
    _ ← print "";
    mret true
  else
    _ ← print ("✅ " +:+ lang +:+ ": Complete ("
               +:+ pretty (size methods) +:+ " methods)");
    _ ← print "";
    mret has_issues.

(** The second half of [main]: from the collected sets to the verdict. *)
Definition audit (all_methods : dict (gset string)) : io nat :=
  let expected_methods := expected_surface all_methods in
  _ ← print ("Expected API Surface: "
             +:+ pretty (size expected_methods) +:+ " methods");
  _ ← print (str_repeat "=" 70);
  _ ← print "";
  has_issues ← for_each (sorted (dict_keys all_methods))
                 (check_language all_methods expected_methods) false;
  _ ← print (str_repeat "=" 70);
  _ ← (if has_issues : bool then
         _ ← print "⚠️  API SURFACE INCONSISTENCIES DETECTED";
         _ ← print "Action Required: Update generators to ensure all languages have";
         print "the same API surface."
       else print "✅ ALL LANGUAGES HAVE CONSISTENT API SURFACE");
  _ ← print (str_repeat "=" 70);
  mret (if has_issues : bool then 1 else 0).

(** [main()], over a table of profiles and a file system. *)
Definition main_with (configs : dict config) (fs : filesystem) : io nat :=
  _ ← print (str_repeat "=" 70);
  _ ← print "CROSS-LANGUAGE API SURFACE AUDIT";
  _ ← print (str_repeat "=" 70);
  _ ← print "";
  all_methods ← extract_all fs configs;
  _ ← print "";
  _ ← print (str_repeat "=" 70);
  audit all_methods.

Definition main (fs : filesystem) : io nat := main_with SDK_CONFIGS fs.

End Audit.

(** ** Mode B: [scripts/check_api_compatibility.py] *)

Module Compat.

Definition spaces1 : regex := Rep true 1 Char.is_space.
Definition spaces0 : regex := Rep true 0 Char.is_space.
Definition word1 : regex := Rep true 1 Char.is_word.
Definition lazy_any : regex := Rep false 0 Char.is_dot.

(** The three patterns of [extract_js_methods], in the order of the list:
    -  async \s+ ( \w+ ) \s* \( ( .*? ) \)
    -  ( \w+ ) \s* : \s* async \s+ function \s* \( ( .*? ) \)
    -  ( \w+ ) \s* \( ( .*? ) \) \s* {  *)
Definition js_patterns : list regex :=
  [seq [lit "async"; spaces1; Grp 1 word1; spaces0;
        Chr "("; Grp 2 lazy_any; Chr ")"];
   seq [Grp 1 word1; spaces0; Chr ":"; spaces0; lit "async"; spaces1;
        lit "function"; spaces0; Chr "("; Grp 2 lazy_any; Chr ")"];
   seq [Grp 1 word1; spaces0; Chr "("; Grp 2 lazy_any; Chr ")"; spaces0;
        Chr "{"]].

(** [methods[name].append(params)], creating the list at first use. *)
Definition record_occurrence (methods : dict (list string))
    (method_name params : string) : dict (list string) :=
  match dict_get method_name methods with
  | None => dict_set method_name [params] methods
  | Some l => dict_set method_name (l ++ [params]) methods
  end.

(** The body of the inner loop of [extract_js_methods]. *)
Definition add_js_match (methods : dict (list string)) (m : rmatch_obj)
    : dict (list string) :=
  let method_name := group_str 1 m in
  let params := strip (group_str 2 m) in
  if bool_decide (method_name ∈ ["constructor"; "__init__"])
     || starts_with_underscore method_name
  then methods
  else record_occurrence methods method_name params.

(** [extract_js_methods], on the text read from the reference file. *)
Definition extract_js_methods (content : string) : dict (list string) :=
  foldl (λ methods pattern,
           foldl add_js_match methods (finditer pattern content))
        [] js_patterns.

(** def \s+ ( \w+ ) \s* \( self (?: , \s* ( .*? ) )? \) \s* (?: -> .*? )? : *)
Definition python_pattern : regex :=
  seq [lit "def"; spaces1; Grp 1 word1; spaces0; Chr "("; lit "self";
       Opt (seq [Chr ","; spaces0; Grp 2 lazy_any]);
       Chr ")"; spaces0; Opt (Cat (lit "->") lazy_any); Chr ":"].

(** The body of the loop of [extract_python_methods]. *)
Definition add_python_match (methods : dict (list string)) (m : rmatch_obj)
    : dict (list string) :=
  let method_name := group_str 1 m in
  let params :=
    match group 2 (m_groups m) with
    | Some g => if truthy g then g else ""
    | None => ""
    end in
  if starts_with_underscore method_name then methods
  else record_occurrence methods method_name (strip params).

(** [extract_python_methods], on the text read from the SDK file. *)
Definition extract_python_methods (content : string) : dict (list string) :=
  foldl add_python_match [] (finditer python_pattern content).

(** [js_to_python_name(js_name)] *)
Definition js_to_python_name (js_name : string) : string :=
  str_lower (sub camel_boundary camel_repl js_name).

(** The number of non-blank pieces between commas:
    [len([p for p in s.split(',') if p.strip()]) if s else 0]. *)
Definition count_params (s : string) : nat :=
  if truthy s
  then length (filter (λ p, truthy (strip p) = true) (split "," s))
  else 0.

(** The type-hint pattern  : \s* [^,=]+  *)
Definition not_comma_eq (c : ascii) : bool :=
  negb (Ascii.eqb c "," || Ascii.eqb c "=").

Definition type_hint : regex :=
  seq [Chr ":"; spaces0; Rep true 1 not_comma_eq].

Definition js_param_count (js_param_str : string) : nat :=
  count_params js_param_str.

Definition py_param_count (py_param_str : string) : nat :=
  count_params (sub type_hint [] py_param_str).

Definition mismatch_line (method : string) (js_param_count py_param_count : nat)
    : string :=
  method +:+ ": JS has " +:+ pretty js_param_count
         +:+ " params, Python has " +:+ pretty py_param_count +:+ " params".

(** The dictionary comprehension of [compare_apis]. *)
Definition expected_py_methods (js_methods : dict (list string))
    : dict (list string) :=
  foldl (λ d '(name, params), dict_set (js_to_python_name name) params d)
        [] js_methods.

(** The mismatches of one method present on both sides. *)
Definition method_mismatches (expected py_methods : dict (list string))
    (method : string) : list string :=
  let js_params := default [] (dict_get method expected) in
  let py_params_list := default [] (dict_get method py_methods) in
  js_param_str ← js_params;
  py_param_str ← py_params_list;
  if decide (js_param_count js_param_str ≠ py_param_count py_param_str)
  then [mismatch_line method (js_param_count js_param_str)
                      (py_param_count py_param_str)]
  else [].

(** [compare_apis(js_methods, py_methods)]; the common names are visited
    in the order of [elements], Python fixing none for a set. *)
Definition compare_apis (js_methods py_methods : dict (list string))
    : list string * list string * list string :=
  let expected := expected_py_methods js_methods in
  let js_method_names : gset string := list_to_set (dict_keys expected) in
  let py_method_names : gset string := list_to_set (dict_keys py_methods) in
  let missing := sorted (elements (js_method_names ∖ py_method_names)) in
  let extra := sorted (elements (py_method_names ∖ js_method_names)) in
  let mismatches :=
    elements (js_method_names ∩ py_method_names)
      ≫= method_mismatches expected py_methods in
  (missing, extra, mismatches).

(** The report and the verdict of [main], from the three lists. *)
Definition report (missing extra mismatches : list string) : io nat :=
  has_issues ←
    (if truthy_list missing then
       _ ← print "❌ MISSING METHODS (in reference but not in generated):";
       _ ← for_each missing (λ _ method, print ("   - " +:+ method)) tt;
       _ ← print "";
       mret true
     else mret false);
  _ ← (if truthy_list extra then
         _ ← print "ℹ️  EXTRA METHODS (in generated but not in reference):";
         _ ← for_each extra (λ _ method, print ("   + " +:+ method)) tt;
         print ""
       else mret tt);
  has_issues ←
    (if truthy_list mismatches then
       _ ← print "⚠️  SIGNATURE MISMATCHES:";
       _ ← for_each mismatches
              (λ _ mismatch, print ("   ! " +:+ mismatch)) tt;
       _ ← print "";
       mret true
     else mret (has_issues : bool));
  if negb has_issues then
    _ ← print "✅ API compatibility check passed!";
    _ ← print "   All reference methods are present with compatible signatures.";
    mret 0
  else
    _ ← print "❌ API compatibility issues found!";
    _ ← print "   Please review the missing methods and mismatches above.";
    mret 1.

Definition py_sdk_rel : string :=
  "dist/circular-py/src/circular_protocol_api/client.py".

(** [main()], for a repository root and a file system. *)
Definition main (repo_root : string) (fs : filesystem) : io nat :=
  let js_xml := repo_root +:+ "/" +:+ "circular-js.xml" in
  let py_sdk := repo_root +:+ "/" +:+ py_sdk_rel in
  match fs js_xml with
  | None =>
      _ ← print ("❌ Reference file not found: " +:+ js_xml);
      mret 1
  | Some js_text =>
      match fs py_sdk with
      | None =>
          _ ← print ("❌ Generated SDK not found: " +:+ py_sdk);
          mret 1
      | Some py_text =>
          _ ← print "🔍 Checking API compatibility...";
          _ ← print ("📘 Reference: " +:+ "circular-js.xml");
          _ ← print ("🐍 Generated: " +:+ py_sdk_rel);
          _ ← print "";
          let js_methods := extract_js_methods js_text in
          let py_methods := extract_python_methods py_text in
          _ ← print ("📊 Reference methods found: "
                     +:+ pretty (length js_methods));
          _ ← print ("📊 Generated methods found: "
                     +:+ pretty (length py_methods));
          _ ← print "";
          let '(missing, extra, mismatches) :=
            compare_apis js_methods py_methods in
          report missing extra mismatches
      end
  end.

End Compat.

(** ** The mock server: [tests/mock-server/server.py] *)

(** [do_POST] is given the path of the request ([urlparse(self.path).path])
    and what [_get_request_body] returned.  A handler answers with one
    response or raises an exception before anything is written; the latter
    is [None]. *)

Module Mock.

(** A value that [json.loads] returns and [json.dumps] writes: [None],
    [bool], [int], [float], [str], [list] and [dict]. *)
Local Unset Elimination Schemes.
Inductive json : Type :=
| JNull
| JBool (b : bool)
| JInt (n : Z)
| JFloat (x : spec_float)
| JStr (s : string)
| JList (items : list json)
| JObj (fields : dict json).
Local Set Elimination Schemes.

(** Truth value: [None], [False], zero and the empty string, list and dict
    are false. *)
Definition truthy_json (v : json) : bool :=
  match v with
  | JNull => false
  | JBool b => b
  | JInt n => negb (n =? 0)%Z
  | JFloat x => match x with S754_zero _ => false | _ => true end
  | JStr s => truthy s
  | JList items => truthy_list items
  | JObj fields => truthy_list fields
  end.

(** [body.get(key, default)].  Only a [dict] has the method: on any other
    value the call raises [AttributeError], here [None]. *)
Definition get (body : json) (key : string) (default : json) : option json :=
  match body with
  | JObj fields =>
      Some (match dict_get key fields with Some v => v | None => default end)
  | _ => None
  end.

(** The characters of a text of a request, as code points.  The text is
    carried in UTF-8 (a surrogate that stands alone as its three bytes);
    [pending] bytes of the character begun are still to come, [acc] holds
    what has been read of it.  [None]: the bytes are no such text. *)
Fixpoint code_points (pending : nat) (acc : N) (s : string)
    : option (list N) :=
  match s with
  | "" => match pending with O => Some [] | S _ => None end
  | String c s' =>
      let b := N_of_ascii c in
      match pending with
      | O =>
          if (b <? 128)%N then cons b <$> code_points 0 0 s'
          else if (192 <=? b)%N && (b <? 224)%N
          then code_points 1 (b - 192) s'
          else if (224 <=? b)%N && (b <? 240)%N
          then code_points 2 (b - 224) s'
          else if (240 <=? b)%N && (b <? 248)%N
          then code_points 3 (b - 240) s'
          else None
      | S k =>
          if (128 <=? b)%N && (b <? 192)%N then
            let acc' := (64 * acc + (b - 128))%N in
            match k with
            | O => cons acc' <$> code_points 0 0 s'
            | S _ => code_points k acc' s'
            end
          else None
      end
  end.

(** The character tables of the interpreter (CPython 3.11, Unicode 14.0).
    The decimal digits come in runs of ten, zero to nine, given by their
    first code point; the other characters that [isdigit] accepts
    (superscripts, circled and dotted digits and the like) have no decimal
    value. *)
Definition decimal_runs : list N :=
  [48; 1632; 1776; 1984; 2406; 2534; 2662; 2790; 2918; 3046; 3174; 3302;
   3430; 3558; 3664; 3792; 3872; 4160; 4240; 6112; 6160; 6470; 6608; 6784;
   6800; 6992; 7088; 7232; 7248; 42528; 43216; 43264; 43472; 43504; 43600;
   44016; 65296; 66720; 68912; 69734; 69872; 69942; 70096; 70384; 70736;
   70864; 71248; 71360; 71472; 71904; 72016; 72784; 73040; 73120; 92768;
   92864; 93008; 120782; 120792; 120802; 120812; 120822; 123200; 123632;
   125264; 130032]%N.

Definition other_digits : list (N * N) :=
  [(178, 179); (185, 185); (4969, 4977); (6618, 6618); (8304, 8304);
   (8308, 8313); (8320, 8329); (9312, 9320); (9332, 9340); (9352, 9360);
   (9450, 9450); (9461, 9469); (9471, 9471); (10102, 10110); (10112, 10120);
   (10122, 10130); (68160, 68163); (69216, 69224); (69714, 69722);
   (127232, 127242)]%N.

(** [ch.isdecimal()], with the value of the digit, and [ch.isdigit()]. *)
Definition decimal (cp : N) : option N :=
  (λ start, cp - start)%N
  <$> List.find (λ start, (start <=? cp)%N && (cp <? start + 10)%N)
        decimal_runs.

Definition is_digit (cp : N) : bool :=
  bool_decide (is_Some (decimal cp))
  || existsb (λ r, (r.1 <=? cp)%N && (cp <=? r.2)%N) other_digits.

(** [s.isdigit()]: at least one character, and digits only. *)
Definition isdigit (s : string) : bool :=
  match code_points 0 0 s with
  | Some (cp :: cps) => forallb is_digit (cp :: cps)
  | _ => false
  end.

(** [int(s)] for a string on which [isdigit] holds: the decimal number, when
    every character has a decimal value (ValueError otherwise, here [None]).
    The interpreter also refuses (ValueError) a string of more than
    [max_str_digits] digits when that limit is not 0 and the string has more
    than 640 digits; the limit is 4300 unless the interpreter is told
    otherwise. *)
Definition str_digits_check_threshold : nat := 640.

Definition int (max_str_digits : nat) (s : string) : option Z :=
  cps ← code_points 0 0 s;
  let digits := length cps in
  if decide (str_digits_check_threshold < digits
             ∧ 0 < max_str_digits < digits)
  then None
  else
    values ← mapM decimal cps;
    Some (Z.of_N (foldl (λ acc d, 10 * acc + d)%N 0%N values)).

(** What [_send_response] writes: the status, the headers it adds and the
    JSON document. *)
Record response : Type := Response {
  status_code : Z;
  headers : list (string * string);
  data : json;
}.

Definition _send_response (status_code : Z) (data : json) : option response :=
  Some (Response status_code
          [("Content-Type", "application/json");
           ("Access-Control-Allow-Origin", "*")]
          data).

(** [int(block_num) if block_num.isdigit() else 12345]; a value that is no
    [str] has no [isdigit]. *)
Definition block_number (max_str_digits : nat) (block_num : json)
    : option Z :=
  match block_num with
  | JStr s => if isdigit s then int max_str_digits s else Some 12345%Z
  | _ => None
  end.

Global Arguments decimal : simpl never.
Global Arguments is_digit : simpl never.
Global Arguments isdigit : simpl never.
Global Arguments int : simpl never.
Global Arguments block_number : simpl never.

(** The handlers.  A handler answers ([Some]) or raises before anything is
    written ([None]). *)
Definition _handle_check_wallet (body : json) : option response :=
  address ← get body "Address" (JStr "");
  _send_response 200 (JObj [
    ("Result", JInt 200);
    ("Response", JObj [
      ("exists", JBool true);
      ("address", address)])]).

Definition _handle_get_wallet (body : json) : option response :=
  address ← get body "Address" (JStr "");
  _send_response 200 (JObj [
    ("Result", JInt 200);
    ("Response", JObj [
      ("Address", address);
      ("Balance", JInt 1000000);
      ("Nonce", JInt 42);
      ("Registered", JBool true)])]).

Definition _handle_get_latest_transactions (body : json) : option response :=
  address ← get body "Address" (JStr "");
  _send_response 200 (JObj [
    ("Result", JInt 200);
    ("Response", JObj [
      ("Transactions", JList [
        JObj [
          ("ID", JStr "0xabcd...1234");
          ("From", address);
          ("To", JStr "0x9999...9999");
          ("Amount", JInt 100);
          ("Timestamp", JStr "2024-01-15:10:30:00")]]);
      ("Count", JInt 1)])]).

Definition _handle_get_wallet_balance (body : json) : option response :=
  asset ← get body "Asset" (JStr "CIRX");
  _send_response 200 (JObj [
    ("Result", JInt 200);
    ("Response", JObj [
      ("Balance", JInt 500000);
      ("Asset", asset)])]).

Definition _handle_get_wallet_nonce (body : json) : option response :=
  _send_response 200 (JObj [
    ("Result", JInt 200);
    ("Response", JObj [
      ("Nonce", JInt 42)])]).

Definition _handle_register_wallet (body : json) : option response :=
  _send_response 200 (JObj [
    ("Result", JInt 200);
    ("Response", JObj [
      ("TransactionID", JStr "0xcccc...cccc");
      ("Status", JStr "pending")])]).

Definition _handle_send_transaction (body : json) : option response :=
  tx_id ← get body "ID" (JStr "0xabcd...efgh");
  _send_response 200 (JObj [
    ("Result", JInt 200);
    ("Response", JObj [
      ("TransactionID", tx_id);
      ("Status", JStr "pending")])]).

Definition _handle_get_pending_transaction (body : json) : option response :=
  tx_id ← get body "ID" (JStr "");
  _send_response 200 (JObj [
    ("Result", JInt 200);
    ("Response", JObj [
      ("TransactionID", tx_id);
      ("Status", JStr "pending");
      ("Timestamp", JStr "2024-01-15:10:30:00")])]).

Definition _handle_get_transaction_by_id (body : json) : option response :=
  tx_id ← get body "ID" (JStr "");
  _send_response 200 (JObj [
    ("Result", JInt 200);
    ("Response", JObj [
      ("Transactions", JList [
        JObj [
          ("ID", tx_id);
          ("From", JStr "0xaaaa...aaaa");
          ("To", JStr "0xbbbb...bbbb");
          ("Amount", JInt 100);
          ("Status", JStr "confirmed")]])])]).

Definition _handle_get_transaction_by_node (body : json) : option response :=
  _send_response 200 (JObj [
    ("Result", JInt 200);
    ("Response", JObj [
      ("Transactions", JList []);
      ("Count", JInt 0)])]).

Definition _handle_get_transaction_by_address (body : json)
    : option response :=
  address ← get body "Address" (JStr "");
  _send_response 200 (JObj [
    ("Result", JInt 200);
    ("Response", JObj [
      ("Transactions", JList [
        JObj [
          ("ID", JStr "0xtx1");
          ("From", address);
          ("To", JStr "0xdest");
          ("Amount", JInt 50)]]);
      ("Count", JInt 1)])]).

Definition _handle_get_transaction_by_date (body : json) : option response :=
  _send_response 200 (JObj [
    ("Result", JInt 200);
    ("Response", JObj [
      ("Transactions", JList []);
      ("Count", JInt 0)])]).

Definition _handle_get_block (max_str_digits : nat) (body : json)
    : option response :=
  block_num ← get body "BlockNumber" (JStr "12345");
  number ← block_number max_str_digits block_num;
  _send_response 200 (JObj [
    ("Result", JInt 200);
    ("Response", JObj [
      ("BlockNumber", JInt number);
      ("Timestamp", JStr "2024-01-15:10:30:00");
      ("Transactions", JList []);
      ("Hash", JStr "0xblock123...")])]).

Definition _handle_get_block_range (body : json) : option response :=
  _send_response 200 (JObj [
    ("Result", JInt 200);
    ("Response", JObj [
      ("Blocks", JList []);
      ("Count", JInt 0)])]).

Definition _handle_get_block_count (body : json) : option response :=
  _send_response 200 (JObj [
    ("Result", JInt 200);
    ("Response", JObj [
      ("BlockCount", JInt 123456)])]).

Definition _handle_get_analytics (body : json) : option response :=
  _send_response 200 (JObj [
    ("Result", JInt 200);
    ("Response", JObj [
      ("TotalTransactions", JInt 1000000);
      ("TotalWallets", JInt 50000);
      ("TotalAssets", JInt 100);
      ("BlockHeight", JInt 123456)])]).

Definition _handle_test_contract (body : json) : option response :=
  _send_response 200 (JObj [
    ("Result", JInt 200);
    ("Response", JStr "Contract execution successful")]).

Definition _handle_call_contract (body : json) : option response :=
  _send_response 200 (JObj [
    ("Result", JInt 200);
    ("Response", JObj [
      ("Output", JStr "0x1234");
      ("GasUsed", JInt 21000)])]).

Definition _handle_get_asset_list (body : json) : option response :=
  _send_response 200 (JObj [
    ("Result", JInt 200);
    ("Response", JObj [
      ("Assets", JList [JStr "CIRX"; JStr "TEST"; JStr "DEMO"]);
      ("Count", JInt 3)])]).

Definition _handle_get_asset (body : json) : option response :=
  asset_name ← get body "AssetName" (JStr "CIRX");
  _send_response 200 (JObj [
    ("Result", JInt 200);
    ("Response", JObj [
      ("AssetName", asset_name);
      ("TotalSupply", JInt 1000000000);
      ("Decimals", JInt 8);
      ("Owner", JStr "0xbbbb...bbbb")])]).

Definition _handle_get_asset_supply (body : json) : option response :=
  _send_response 200 (JObj [
    ("Result", JInt 200);
    ("Response", JObj [
      ("TotalSupply", JInt 1000000000);
      ("CirculatingSupply", JInt 750000000);
      ("ResidualSupply", JInt 250000000)])]).

Definition _handle_get_voucher (body : json) : option response :=
  code ← get body "Code" (JStr "");
  _send_response 200 (JObj [
    ("Result", JInt 200);
    ("Response", JObj [
      ("Code", code);
      ("Value", JInt 100);
      ("Asset", JStr "CIRX");
      ("Redeemed", JBool false)])]).

Definition _handle_get_domain (body : json) : option response :=
  domain ← get body "Domain" (JStr "");
  _send_response 200 (JObj [
    ("Result", JInt 200);
    ("Response", JObj [
      ("Domain", domain);
      ("Address", JStr "0xbbbb...bbbb")])]).

Definition _handle_get_blockchains (body : json) : option response :=
  _send_response 200 (JObj [
    ("Result", JInt 200);
    ("Response", JList [
      JObj [
        ("Name", JStr "MainNet");
        ("ChainID", JStr "1");
        ("Active", JBool true)];
      JObj [
        ("Name", JStr "TestNet");
        ("ChainID", JStr "2");
        ("Active", JBool true)];
      JObj [
        ("Name", JStr "DevNet");
        ("ChainID", JStr "3");
        ("Active", JBool true)]])]).

(** The routing table of [do_POST]. *)
Definition handlers (max_str_digits : nat)
    : dict (json → option response) :=
  [
    ("/checkWallet", _handle_check_wallet);
    ("/getWallet", _handle_get_wallet);
    ("/getLatestTransactions", _handle_get_latest_transactions);
    ("/getWalletBalance", _handle_get_wallet_balance);
    ("/getWalletNonce", _handle_get_wallet_nonce);
    ("/registerWallet", _handle_register_wallet);
    ("/sendTransaction", _handle_send_transaction);
    ("/getPendingTransaction", _handle_get_pending_transaction);
    ("/getTransactionbyID", _handle_get_transaction_by_id);
    ("/getTransactionbyNode", _handle_get_transaction_by_node);
    ("/getTransactionbyAddress", _handle_get_transaction_by_address);
    ("/getTransactionbyDate", _handle_get_transaction_by_date);
    ("/getBlock", _handle_get_block max_str_digits);
    ("/getBlockRange", _handle_get_block_range);
    ("/getBlockCount", _handle_get_block_count);
    ("/getAnalytics", _handle_get_analytics);
    ("/testContract", _handle_test_contract);
    ("/callContract", _handle_call_contract);
    ("/getAssetList", _handle_get_asset_list);
    ("/getAsset", _handle_get_asset);
    ("/getAssetSupply", _handle_get_asset_supply);
    ("/getVoucher", _handle_get_voucher);
    ("/getDomain", _handle_get_domain);
    ("/getBlockchains", _handle_get_blockchains)

  ].

(** [body or {}], for the value [_get_request_body] returned ([None] when the
    request has no content). *)
Definition or_empty (body : option json) : json :=
  match body with
  | Some v => if truthy_json v then v else JObj []
  | None => JObj []
  end.

(** [do_POST], for the path of the request line and the parsed body. *)
Definition do_POST (max_str_digits : nat) (path : string)
    (body : option json) : option response :=
  match dict_get path (handlers max_str_digits) with
  | Some handler => handler (or_empty body)
  | None =>
      _send_response 404 (JObj [
        ("Result", JInt 404);
        ("Response", JStr ("Endpoint not found: " +:+ path))])
  end.

End Mock.

(** ** The cross-language runner: [tests/cross-lang/run-tests.py] *)

Module RunTests.

Module Colors.
Definition RED : string := String "027" "[0;31m".
Definition GREEN : string := String "027" "[0;32m".
Definition YELLOW : string := String "027" "[1;33m".
Definition BLUE : string := String "027" "[0;34m".
Definition NC : string := String "027" "[0m".
End Colors.

Definition scenarios_file : string := "tests/cross-lang/test-scenarios.yaml".

Definition main (fs : filesystem) : io nat :=
  _ ← print (Colors.BLUE +:+ "Cross-Language Validation Tests"
             +:+ Colors.NC);
  _ ← print (str_repeat "=" 40);
  _ ← print "";
  match fs scenarios_file with
  | None =>
      _ ← print (Colors.YELLOW +:+ "⚠ test-scenarios.yaml not found"
                 +:+ Colors.NC);
      _ ← print "";
      _ ← print "Cross-language tests not yet implemented.";
      _ ← print "Will be implemented in Week 3-4.";
      _ ← print "";
      _ ← print "Expected structure:";
      _ ← print "  tests/cross-lang/";
      _ ← print "    ├── test-scenarios.yaml  # Test cases";
      _ ← print "    ├── runners/";
      _ ← print "    │   ├── typescript.ts    # TS test runner";
      _ ← print "    │   ├── python.py        # Python test runner";
      _ ← print "    │   ├── java.java        # Java test runner";
      _ ← print "    │   └── php.php          # PHP test runner";
      _ ← print "    └── run-tests.py         # This file";
      _ ← print "";
      mret 0
  | Some _ =>
      _ ← print (Colors.GREEN
                 +:+ "✓ Cross-language tests not yet implemented"
                 +:+ Colors.NC);
      _ ← print "  See TESTING_STRATEGY.md for implementation details";
      mret 0
  end.

End RunTests.

(** * The spec's reading of the normalizer *)

Inductive convention : Type := SnakeStyle | CamelStyle | CapitalizedCamelStyle.

(** The tag a profile carries for each convention. *)
Definition tag (cv : convention) : string :=
  match cv with
  | SnakeStyle => "snake_case"
  | CamelStyle => "camelCase"
  | CapitalizedCamelStyle => "PascalCase"
  end.

(** A separator before every uppercase letter whose predecessor [before] is
    a lowercase letter or a digit. *)
Fixpoint spec_separate (before : option ascii) (s : string) : string :=
  match s with
  | "" => ""
  | String c s' =>
      if Char.is_upper c && from_option lower_or_digit false before
      then String "_" (String c (spec_separate (Some c) s'))
      else String c (spec_separate (Some c) s')
  end.

(** The spec's contract of the normalizer: snake-style names unchanged, the
    two camel styles separated and then lowercased. *)
Definition spec_normalize (name : string) (cv : convention) : string :=
  match cv with
  | SnakeStyle => name
  | CamelStyle | CapitalizedCamelStyle =>
      str_lower (spec_separate None name)
  end.

(** * The spec's reading of the signature parser *)

(** The text cut at the commas outside every bracket: [depth] counts the
    angle brackets, parentheses and square brackets open at this point. *)
Fixpoint spec_split_top (depth : nat) (s : string) : list string :=
  match s with
  | "" => [""]
  | String c s' =>
      if Ascii.eqb c "," && Nat.eqb depth 0 then "" :: spec_split_top 0 s'
      else
        let depth' :=
          if Ascii.eqb c "<" || Ascii.eqb c "(" || Ascii.eqb c "["
          then S depth
          else if Ascii.eqb c ">" || Ascii.eqb c ")" || Ascii.eqb c "]"
          then pred depth
          else depth in
        match spec_split_top depth' s' with
        | p :: ps => String c p :: ps
        | [] => [String c ""]
        end
  end.

(** A token without its annotation (from the colon on) and its default
    value (from the equals sign on). *)
Fixpoint spec_bare (token : string) : string :=
  match token with
  | "" => ""
  | String c s' =>
      if Ascii.eqb c ":" || Ascii.eqb c "=" then ""
      else String c (spec_bare s')
  end.

(** The spec's contract of the signature parser: no token for an empty or
    blank text, else one stripped, bare token per top-level piece. *)
Definition spec_parse (raw : string) : list string :=
  if truthy (strip raw)
  then (λ token, strip (spec_bare token)) <$> spec_split_top 0 raw
  else [].

(** * Vocabulary of the statements *)

(** ** Names that pass the filters *)

(** A raw name that passes the filter of a profile of the audit. *)
Definition kept_by (cfg : Audit.config) (raw : string) : Prop :=
  (raw ∉ Audit.exclude cfg) ∧ starts_with_underscore raw = false.

(** A raw name that passes the filter of the reference extractor. *)
Definition js_kept (raw : string) : Prop :=
  (raw ∉ ["constructor"; "__init__"]) ∧ starts_with_underscore raw = false.

(** ** Lines of the audit's report *)

(** The line of the second loop of the audit that gives a language its
    verdict. *)
Definition verdict_line (all_methods : dict (gset string)) (lang : string)
    : string :=
  let methods := default ∅ (dict_get lang all_methods) in
  let missing :=
    Audit.missing_of (Audit.expected_surface all_methods) methods in
  if truthy_list missing
  then "❌ " +:+ lang +:+ ": Missing " +:+ pretty (length missing)
       +:+ " methods"
  else "✅ " +:+ lang +:+ ": Complete (" +:+ pretty (size methods)
       +:+ " methods)".

(** ** Texts and their runs of characters *)

(** The longest run of characters of a class at the head of a text, and what
    follows it. *)
Fixpoint run (p : ascii → bool) (s : string) : string :=
  match s with
  | String a s' => if p a then String a (run p s') else ""
  | "" => ""
  end.

Fixpoint after (p : ascii → bool) (s : string) : string :=
  match s with
  | String a s' => if p a then after p s' else s
  | "" => ""
  end.

(** The character before the position reached by reading [x]. *)
Fixpoint prev_after (prev : option ascii) (x : string) : option ascii :=
  match x with
  | "" => prev
  | String a x' => prev_after (Some a) x'
  end.

(** The first character is there and belongs to the class. *)
Definition head_is (p : ascii → bool) (s : string) : bool :=
  match s with
  | String a _ => p a
  | "" => false
  end.

(** The text without its type hints, read off the text directly: inside a
    hint ([in_hint]) characters are dropped up to the next comma or equals
    sign; outside, a colon opens a hint when the next character is neither
    of the two. *)
Fixpoint erase_hints (in_hint : bool) (s : string) : string :=
  match s with
  | "" => ""
  | String c s' =>
      if in_hint then
        if Compat.not_comma_eq c then erase_hints true s'
        else String c (erase_hints false s')
      else if Ascii.eqb c ":" && head_is Compat.not_comma_eq s'
      then erase_hints true s'
      else String c (erase_hints false s')
  end.

(** Whitespace only (the empty text included), and free of commas. *)
Fixpoint all_space (s : string) : bool :=
  match s with
  | "" => true
  | String c s' => Char.is_space c && all_space s'
  end.

Fixpoint no_comma (s : string) : bool :=
  match s with
  | "" => true
  | String c s' => negb (Ascii.eqb c ",") && no_comma s'
  end.

(** A piece of a parameter list that holds no comma and, after its leading
    whitespace, starts with something other than a colon: a parameter name,
    whatever annotation or default value follows it. *)
Definition flat_param (piece : string) : bool :=
  no_comma piece
  && head_is (λ c, negb (Ascii.eqb c ":")) (lstrip piece).

(** ** Sample inputs *)

(** Three profiles in the snake style whose texts declare {foo, bar}, {foo}
    and {foo, bar, baz}. *)
Definition abc_configs : dict Audit.config :=
  [("A", Audit.Config "a.py" Audit.python_pattern ∅ "snake_case");
   ("B", Audit.Config "b.py" Audit.python_pattern ∅ "snake_case");
   ("C", Audit.Config "c.py" Audit.python_pattern ∅ "snake_case")].

Definition abc_fs : filesystem := λ path,
  if String.eqb path "a.py" then
    Some "class Api:
    def foo(self):
    def bar(self, x):"
  else if String.eqb path "b.py" then
    Some "class Api:
    def foo(self):"
  else if String.eqb path "c.py" then
    Some "class Api:
    def foo(self):
    def bar(self, x):
    def baz(self, x, y):"
  else None.

(** The same three profiles with the text of B gone. *)
Definition abc_fs_without_b : filesystem := λ path,
  if String.eqb path "b.py" then None else abc_fs path.

(** A text of the TypeScript SDK that declares its constructor, which that
    profile excludes, and a text of the Go SDK in which a method of the same
    name (capitalized, as Go has it) is declared and not excluded. *)
Definition constructor_fs : filesystem := λ path,
  if String.eqb path "dist/circular-ts/src/index.ts" then
    Some "export class Api {
  constructor(url) {}
  getWallet(a) {}
}"
  else if String.eqb path "dist/circular-go/circular_protocol.go" then
    Some "func (c *Client) Constructor(url string) {
func (c *Client) GetWallet(a string) {"
  else None.

(** The reference declares getWallet(a, b) and sendTransaction(a), the
    target get_wallet(a) and send_transaction(a, b). *)
Definition spec_example_fs : filesystem := λ path,
  if String.eqb path "/repo/circular-js.xml" then
    Some "getWallet(a, b) { }
sendTransaction(a) { }"
  else if String.eqb path
            "/repo/dist/circular-py/src/circular_protocol_api/client.py" then
    Some "def get_wallet(self, a):
def send_transaction(self, a, b):"
  else None.

(** The target declares one method more than the reference. *)
Definition extra_example_fs : filesystem := λ path,
  if String.eqb path "/repo/circular-js.xml" then
    Some "getWallet(a) { }"
  else if String.eqb path
            "/repo/dist/circular-py/src/circular_protocol_api/client.py" then
    Some "def get_wallet(self, a):
def get_balance(self, a):"
  else None.

(** A reference with a destructured parameter against a target with two
    parameters, and a reference with two spellings of one key. *)
Definition destructured_fs : filesystem := λ path,
  if String.eqb path "/repo/circular-js.xml" then
    Some "foo([a, b]) { }"
  else if String.eqb path
            "/repo/dist/circular-py/src/circular_protocol_api/client.py" then
    Some "def foo(self, x, y):"
  else None.

Definition collision_fs : filesystem := λ path,
  if String.eqb path "/repo/circular-js.xml" then
    Some "getWallet(a, b) { }
GetWallet(a) { }"
  else if String.eqb path
            "/repo/dist/circular-py/src/circular_protocol_api/client.py" then
    Some "def get_wallet(self, a):"
  else None.

(** ** Names, tables and counts *)

(** A text without the occurrences of one character. *)
Fixpoint remove_char (x : ascii) (s : string) : string :=
  match s with
  | "" => ""
  | String c s' =>
      if Ascii.eqb c x then remove_char x s' else String c (remove_char x s')
  end.

(** No uppercase letter in the text. *)
Fixpoint no_upper (s : string) : bool :=
  match s with
  | "" => true
  | String c s' => negb (Char.is_upper c) && no_upper s'
  end.

(** A match that the reference extractor records, and one that the target
    extractor records. *)
Definition js_recorded (m : rmatch_obj) : Prop :=
  js_kept (group_str 1 m).

Definition python_recorded (m : rmatch_obj) : Prop :=
  starts_with_underscore (group_str 1 m) = false.

Global Instance js_recorded_dec m : Decision (js_recorded m).
Proof. unfold js_recorded, js_kept. apply _. Defined.

Global Instance python_recorded_dec m : Decision (python_recorded m).
Proof. unfold python_recorded. apply _. Defined.

(** All the matches of the reference text, pattern after pattern. *)
Definition js_matches (content : string) : list rmatch_obj :=
  mjoin ((λ pattern, finditer pattern content) <$> Compat.js_patterns).

(** The number of occurrences a table holds. *)
Definition occurrences_total (methods : dict (list string)) : nat :=
  sum_list (length <$> dict_values methods).

(** A table as the extractors build it: no name twice, no name without an
    occurrence, every parameter text stripped. *)
Definition table_ok (methods : dict (list string)) : Prop :=
  NoDup (dict_keys methods)
  ∧ Forall (λ e, e.2 ≠ [] ∧ Forall (λ p, strip p = p) e.2) methods.

(** ** Requests and answers of the mock server *)

(** The endpoints whose handler reads the body, each with the one key it
    looks up. *)
Definition key_read : dict string :=
  [("/checkWallet", "Address");
   ("/getWallet", "Address");
   ("/getLatestTransactions", "Address");
   ("/getWalletBalance", "Asset");
   ("/sendTransaction", "ID");
   ("/getPendingTransaction", "ID");
   ("/getTransactionbyID", "ID");
   ("/getTransactionbyAddress", "Address");
   ("/getBlock", "BlockNumber");
   ("/getAsset", "AssetName");
   ("/getVoucher", "Code");
   ("/getDomain", "Domain")].

(** The document of an answer: the status once more, then the answer. *)
Definition envelope (code : Z) (answer : Mock.json) : Mock.json :=
  Mock.JObj [("Result", Mock.JInt code); ("Response", answer)].

(** [v[key]] for a [dict], and a key of the answer inside a document. *)
Definition field (key : string) (v : Mock.json) : option Mock.json :=
  match v with
  | Mock.JObj fields => dict_get key fields
  | _ => None
  end.

Definition answer_field (key : string) (r : option Mock.response)
    : option Mock.json :=
  r ← r; answer ← field "Response" (Mock.data r); field key answer.

(** An answer written by [_send_response] for a status: the two headers, and
    a document that repeats the status. *)
Definition answer_ok (code : Z) (r : Mock.response) : Prop :=
  Mock.status_code r = code
  ∧ Mock.headers r = [("Content-Type", "application/json");
                      ("Access-Control-Allow-Origin", "*")]
  ∧ ∃ answer, Mock.data r = envelope code answer.

(** A text of ASCII digits only, and the number it writes in decimal. *)
Fixpoint all_digits (s : string) : bool :=
  match s with
  | "" => true
  | String c s' => Char.is_digit c && all_digits s'
  end.

Fixpoint digits_value (acc : N) (s : string) : N :=
  match s with
  | "" => acc
  | String c s' => digits_value (10 * acc + (N_of_ascii c - 48)) s'
  end.

(** * Properties *)

(** ** Characters and strings *)

Lemma lower_not_upper c : Char.is_upper (Char.lower c) = false.
Proof. by destruct c as [[] [] [] [] [] [] [] []]. Qed.

Lemma lower_underscore c :
  Ascii.eqb (Char.lower c) "_" = Ascii.eqb c "_".
Proof. by destruct c as [[] [] [] [] [] [] [] []]. Qed.

Lemma upper_not_lower_or_digit c :
  Char.is_upper c = true → lower_or_digit c = false.
Proof. by destruct c as [[] [] [] [] [] [] [] []]. Qed.

Lemma str_lower_fixed s :
  (∀ before, spec_separate before (str_lower s) = str_lower s)
  ∧ str_lower (str_lower s) = str_lower s.
Proof.
  induction s as [|c s [IH1 IH2]]; [done|]. split.
  - intros before. cbn [str_lower spec_separate].
    by rewrite lower_not_upper, IH1.
  - cbn [str_lower]. rewrite IH2. f_equal.
    unfold Char.lower at 1. by rewrite lower_not_upper.
Qed.

Lemma append_cons a (s t : string) : String a s +:+ t = String a (s +:+ t).
Proof. reflexivity. Qed.

Lemma append_nil_l (t : string) : "" +:+ t = t.
Proof. reflexivity. Qed.

Lemma length_append (s1 s2 : string) :
  String.length (s1 +:+ s2) = String.length s1 + String.length s2.
Proof.
  induction s1 as [|a s1 IH]; [done|]. rewrite append_cons. cbn. by rewrite IH.
Qed.

(** ** The matcher on the patterns of the scripts *)

Lemma consumed_append (x y : string) : consumed (x +:+ y) y = x.
Proof.
  unfold consumed. rewrite length_append.
  replace (String.length x + String.length y - String.length y)
    with (String.length x) by lia.
  induction x as [|a x IH].
  - by destruct y.
  - rewrite append_cons. cbn. by rewrite IH.
Qed.

Lemma consumed_1 a s : consumed (String a s) s = String a "".
Proof. apply (consumed_append (String a "") s). Qed.

Lemma consumed_2 a b s : consumed (String a (String b s)) s = String a (String b "").
Proof. apply (consumed_append (String a (String b "")) s). Qed.

(** The search loop, one step at a time. *)
Lemma scan_0_nil r prev :
  scan r 0 prev "" =
  match match_at r false prev "" with Some m => [Hit m] | None => [] end.
Proof. reflexivity. Qed.

Lemma scan_S_cons r n prev a s :
  scan r (S n) prev (String a s) = scan r n (Some a) s.
Proof. reflexivity. Qed.

Lemma scan_0_cons r prev a s :
  scan r 0 prev (String a s) =
  match match_at r false prev (String a s) with
  | None => Plain a :: scan r 0 (Some a) s
  | Some m =>
      match String.length (m_whole m) with
      | S n => Hit m :: scan r n (Some a) s
      | O =>
          Hit m ::
          match match_at r true prev (String a s) with
          | Some m' =>
              Hit m' :: scan r (pred (String.length (m_whole m'))) (Some a) s
          | None => Plain a :: scan r 0 (Some a) s
          end
      end
  end.
Proof. reflexivity. Qed.

(** Where the camel boundary matches: a lowercase letter or digit followed
    by an uppercase letter, and nothing else. *)
Lemma match_at_camel_boundary adv prev s :
  match_at camel_boundary adv prev s =
  match s with
  | String a (String b _) =>
      if lower_or_digit a && Char.is_upper b
      then Some (MatchObj (String a (String b ""))
                          [(2, String b ""); (1, String a "")])
      else None
  | _ => None
  end.
Proof.
  destruct s as [|a [|b s]]; unfold match_at; cbn.
  - done.
  - by destruct (lower_or_digit a).
  - destruct (lower_or_digit a); [|done]. cbn.
    destruct (Char.is_upper b); [|done]. cbn.
    replace (String.length s =? S (S (String.length s)))%nat with false
      by (symmetry; apply Nat.eqb_neq; lia).
    rewrite andb_false_r. unfold capture, step. cbn.
    by rewrite consumed_2, !consumed_1.
Qed.

(** The substitution at the camel boundaries, unfolded along the text. *)
Lemma sub_camel_boundary_scan n :
  ∀ s prev, (String.length s ≤ n)%nat →
    rebuild camel_repl (scan camel_boundary 0 prev s) = spec_separate None s.
Proof.
  assert (∀ b t, lower_or_digit b = false →
            spec_separate (Some b) t = spec_separate None t) as Hsep.
  { intros b [|c t] Hb; [done|]. cbn. by rewrite Hb, !andb_false_r. }
  induction n as [|n IH]; intros s prev Hn.
  { destruct s; [|cbn in Hn; lia]. by rewrite scan_0_nil, match_at_camel_boundary. }
  destruct s as [|a s]; [by rewrite scan_0_nil, match_at_camel_boundary|].
  rewrite scan_0_cons, match_at_camel_boundary.
  destruct s as [|b s].
  { rewrite scan_0_nil, match_at_camel_boundary. cbn.
    by rewrite andb_false_r. }
  cbn in Hn. cbn [spec_separate from_option andb].
  rewrite andb_false_r.
  destruct (lower_or_digit a) eqn:Ha, (Char.is_upper b) eqn:Hb;
    cbn [andb String.length rebuild m_whole];
    rewrite ?scan_S_cons, ?andb_false_r, IH by (cbn; lia).
  - rewrite Hsep by by apply upper_not_lower_or_digit. reflexivity.
  - cbn. by rewrite andb_false_r.
  - cbn. by rewrite andb_false_r.
  - cbn. by rewrite andb_false_r.
Qed.

Lemma sub_camel_boundary s :
  sub camel_boundary camel_repl s = spec_separate None s.
Proof. by apply (sub_camel_boundary_scan (String.length s)). Qed.

(** ** The normalizer *)

Lemma normalize_name_cases name from_case :
  Audit.normalize_name name from_case = name
  ∨ Audit.normalize_name name from_case = str_lower (spec_separate None name).
Proof.
  unfold Audit.normalize_name. rewrite sub_camel_boundary.
  destruct (String.eqb from_case "snake_case"); [by left|].
  destruct (_ || _); [by right|by left].
Qed.

(** A lowercased string is a fixed point of every convention. *)
Lemma normalize_name_lowered s from_case :
  Audit.normalize_name (str_lower s) from_case = str_lower s.
Proof.
  destruct (normalize_name_cases (str_lower s) from_case) as [->| ->]; [done|].
  destruct (str_lower_fixed s) as [-> ->]. done.
Qed.

(** C8: normalization maps each convention to the snake-style key as the
    spec describes it: a snake-style name is returned unchanged; a camel-style
    or capitalized-camel-style name gets a separator before every uppercase
    letter that directly follows a lowercase letter or a digit, and is then
    lowercased.  Both scripts agree, and getWallet, get_wallet and GetWallet
    all become get_wallet. *)
Theorem normalize_convention_mapping :
  (∀ name cv, Audit.normalize_name name (tag cv) = spec_normalize name cv)
  ∧ (∀ name, Compat.js_to_python_name name = spec_normalize name CamelStyle)
  ∧ Audit.normalize_name "getWallet" (tag CamelStyle) = "get_wallet"
  ∧ Audit.normalize_name "get_wallet" (tag SnakeStyle) = "get_wallet"
  ∧ Audit.normalize_name "GetWallet" (tag CapitalizedCamelStyle) = "get_wallet".
Proof.
  split_and!; [| |by vm_compute..].
  - intros name [];
      unfold Audit.normalize_name; cbn; by rewrite ?sub_camel_boundary.
  - intros name. unfold Compat.js_to_python_name.
    by rewrite sub_camel_boundary.
Qed.

(** C6: normalization is idempotent: for every raw name and every naming
    tag, normalizing the normalized key again returns it unchanged, in the
    audit's [normalize_name] and in the compatibility check's
    [js_to_python_name]; a key obtained by case conversion is moreover left
    unchanged under every tag. *)
Theorem normalize_idempotent :
  (∀ x from_case,
     Audit.normalize_name (Audit.normalize_name x from_case) from_case
     = Audit.normalize_name x from_case)
  ∧ (∀ x, Compat.js_to_python_name (Compat.js_to_python_name x)
          = Compat.js_to_python_name x)
  ∧ (∀ x from_case,
       Audit.normalize_name
         (Audit.normalize_name x (tag CamelStyle)) from_case
       = Audit.normalize_name x (tag CamelStyle))
  ∧ (∀ x from_case,
       Audit.normalize_name
         (Audit.normalize_name x (tag CapitalizedCamelStyle)) from_case
       = Audit.normalize_name x (tag CapitalizedCamelStyle)).
Proof.
  split_and!.
  - intros x from_case. unfold Audit.normalize_name at 2 3.
    destruct (String.eqb from_case "snake_case") eqn:Hs.
    { unfold Audit.normalize_name. by rewrite Hs. }
    destruct (_ || _) eqn:Hc.
    + apply normalize_name_lowered.
    + unfold Audit.normalize_name. by rewrite Hs, Hc.
  - intros x. unfold Compat.js_to_python_name.
    rewrite !sub_camel_boundary.
    destruct (str_lower_fixed (spec_separate None x)) as [-> ->]. done.
  - intros x from_case. apply normalize_name_lowered.
  - intros x from_case. apply normalize_name_lowered.
Qed.

(** ** Output and dictionaries *)

Lemma result_bind {A B} (m : io A) (f : A → io B) :
  result (m ≫= f) = result (f (result m)).
Proof.
  destruct m as [o a]. unfold result, mbind, io_bind. cbn.
  by destruct (f a).
Qed.

Lemma output_bind {A B} (m : io A) (f : A → io B) :
  output (m ≫= f) = output m ++ output (f (result m)).
Proof.
  destruct m as [o a]. unfold output, result, mbind, io_bind. cbn.
  by destruct (f a).
Qed.

Lemma result_ret {A} (x : A) : result (mret x : io A) = x.
Proof. reflexivity. Qed.

Section dict_facts.
Context {V : Type}.
Implicit Types (d : dict V) (k : string) (v : V).

Lemma dict_get_set k k' v d :
  dict_get k' (dict_set k v d) =
  if decide (k = k') then Some v else dict_get k' d.
Proof.
  induction d as [|[k0 v0] d IH]; cbn.
  - destruct (String.eqb_spec k k'); by case_decide.
  - destruct (String.eqb_spec k0 k) as [->|Hk0]; cbn.
    + destruct (String.eqb_spec k k'); by case_decide.
    + rewrite IH. destruct (String.eqb_spec k0 k'); [|done].
      case_decide; congruence.
Qed.

Lemma dict_get_keys k d : is_Some (dict_get k d) ↔ k ∈ dict_keys d.
Proof.
  unfold dict_keys. induction d as [|[k0 v0] d IH]; cbn.
  - rewrite elem_of_nil. split; [by intros [? ?]|done].
  - rewrite elem_of_cons, <- IH.
    destruct (String.eqb_spec k0 k) as [Hk|Hk].
    + split; [by left|by eauto].
    + split; [by right|]. by intros [?|?]; [congruence|].
Qed.
End dict_facts.

(** ** Loops that print *)

Lemma foldl_ext {A B} (f g : B → A → B) (l : list A) (b : B) :
  (∀ b x, f b x = g b x) → foldl f b l = foldl g b l.
Proof.
  intros Hfg. revert b. induction l as [|x l IH]; intros b; [done|].
  cbn. by rewrite Hfg, IH.
Qed.

Lemma for_each_result {A S} (l : list A) (body : S → A → io S) acc :
  result (for_each l body acc) = foldl (λ a x, result (body a x)) acc l.
Proof.
  revert acc. induction l as [|x l IH]; intros acc; [done|].
  cbn [for_each foldl]. by rewrite result_bind, IH.
Qed.

Lemma for_each_output_elem {A S} (l : list A) (body : S → A → io S)
    acc x line :
  x ∈ l → (∀ a, line ∈ output (body a x)) →
  line ∈ output (for_each l body acc).
Proof.
  intros Hx Hline. revert acc.
  induction l as [|y l IH]; intros acc; [by apply elem_of_nil in Hx|].
  cbn [for_each]. rewrite output_bind, elem_of_app.
  apply elem_of_cons in Hx as [->|Hx]; [left; apply Hline|right; by apply IH].
Qed.

Lemma sorted_elem_of (l : list string) x : x ∈ sorted l ↔ x ∈ l.
Proof. unfold sorted. by rewrite merge_sort_Permutation. Qed.

(** ** Mode B: which occurrences reach the comparison *)

Lemma expected_py_methods_snoc js name params :
  Compat.expected_py_methods (js ++ [(name, params)]) =
  dict_set (Compat.js_to_python_name name) params
           (Compat.expected_py_methods js).
Proof. unfold Compat.expected_py_methods. by rewrite foldl_snoc. Qed.

(** C9: when several raw names of the canonical reference normalize to one
    key, the comparison sees under that key the occurrences of the last such
    raw name only; the occurrences of the earlier ones are dropped, not
    merged.  So a reference declaring getWallet(a, b) and then GetWallet(a)
    is compared as get_wallet with one parameter, and a target declaring
    get_wallet(self, a) passes without a mismatch. *)
Theorem collision_keeps_last_raw_name :
  (∀ (js_methods : dict (list string)) key,
     dict_get key (Compat.expected_py_methods js_methods) =
     snd <$> last (filter (λ e, Compat.js_to_python_name e.1 = key)
                          js_methods))
  ∧ (∀ n1 p1 n2 p2,
       Compat.expected_py_methods [(n1, p1); (n2, p2)]
       = if decide (Compat.js_to_python_name n1 = Compat.js_to_python_name n2)
         then [(Compat.js_to_python_name n1, p2)]
         else [(Compat.js_to_python_name n1, p1);
               (Compat.js_to_python_name n2, p2)])
  ∧ (let js_methods :=
       Compat.extract_js_methods "getWallet(a, b) { }
GetWallet(a) { }" in
     let py_methods :=
       Compat.extract_python_methods "def get_wallet(self, a):" in
     js_methods = [("getWallet", ["a, b"]); ("GetWallet", ["a"])]
     ∧ py_methods = [("get_wallet", ["a"])]
     ∧ Compat.expected_py_methods js_methods = [("get_wallet", ["a"])]
     ∧ Compat.compare_apis js_methods py_methods = ([], [], [])).
Proof.
  split_and!.
  - intros js key. induction js as [|[name params] js IH] using rev_ind.
    { done. }
    rewrite expected_py_methods_snoc, dict_get_set, filter_app, last_app, IH.
    rewrite filter_cons, filter_nil. cbn [fst].
    case_decide; by cbn.
  - intros n1 p1 n2 p2. unfold Compat.expected_py_methods. cbn.
    destruct (String.eqb_spec (Compat.js_to_python_name n1)
                              (Compat.js_to_python_name n2));
      by case_decide.
  - by vm_compute.
Qed.

(** C10: the three declaration patterns of the reference extractor are run
    one after the other over the whole text, each on its own, so one
    declaration can match more than one of them and be recorded more than
    once under its name.  For the declaration [async foo(a) {}] the first and
    the third pattern both match: foo gets two occurrences, and a target
    declaring foo(self) gets the same arity mismatch twice. *)
Theorem js_patterns_overlap :
  (∀ content,
     Compat.extract_js_methods content =
     foldl Compat.add_js_match []
           (mjoin ((λ pattern, finditer pattern content)
                     <$> Compat.js_patterns)))
  ∧ (let content := "async foo(a) {}" in
     (λ pattern, finditer pattern content) <$> Compat.js_patterns
     = [[MatchObj "async foo(a)" [(2, "a"); (1, "foo")]];
        [];
        [MatchObj "foo(a) {" [(2, "a"); (1, "foo")]]]
     ∧ Compat.extract_js_methods content = [("foo", ["a"; "a"])]
     ∧ Compat.compare_apis (Compat.extract_js_methods content)
         (Compat.extract_python_methods "def foo(self):")
       = ([], [],
          ["foo: JS has 1 params, Python has 0 params";
           "foo: JS has 1 params, Python has 0 params"])).
Proof.
  split.
  - intros content. unfold Compat.extract_js_methods.
    induction Compat.js_patterns as [|pattern ps IH] using rev_ind; [done|].
    rewrite foldl_snoc, fmap_app, join_app, foldl_app, IH. cbn.
    by rewrite app_nil_r.
  - split_and!; by vm_compute.
Qed.

(** ** Mode B: mismatches and verdict *)

Lemma compare_apis_mismatch
    (js_methods py_methods : dict (list string)) key
    (js_params py_params_list : list string) js_param_str py_param_str :
  dict_get key (Compat.expected_py_methods js_methods) = Some js_params →
  dict_get key py_methods = Some py_params_list →
  js_param_str ∈ js_params →
  py_param_str ∈ py_params_list →
  Compat.js_param_count js_param_str ≠ Compat.py_param_count py_param_str →
  Compat.mismatch_line key (Compat.js_param_count js_param_str)
                       (Compat.py_param_count py_param_str)
  ∈ (Compat.compare_apis js_methods py_methods).2.
Proof.
  intros Hjs Hpy Ha Hb Hne. unfold Compat.compare_apis. cbn [snd].
  apply list_elem_of_bind. exists key. split.
  - unfold Compat.method_mismatches. rewrite Hjs, Hpy. cbn [default].
    apply list_elem_of_bind. exists js_param_str. split; [|done].
    apply list_elem_of_bind. exists py_param_str. split; [|done].
    rewrite decide_True by done. apply list_elem_of_here.
  - apply elem_of_elements, elem_of_intersection.
    rewrite !elem_of_list_to_set, <- !dict_get_keys. rewrite Hjs, Hpy. eauto.
Qed.

(** The verdict of the report depends on the missing names and on the
    mismatches, and on nothing else. *)
Lemma report_result missing extra mismatches :
  result (Compat.report missing extra mismatches) =
  if truthy_list missing || truthy_list mismatches then 1 else 0.
Proof.
  unfold Compat.report.
  destruct (truthy_list missing), (truthy_list extra),
    (truthy_list mismatches);
    repeat (rewrite result_bind; cbn [negb orb]); reflexivity.
Qed.

Lemma main_result repo_root (fs : filesystem) js_text py_text :
  fs (repo_root +:+ "/" +:+ "circular-js.xml") = Some js_text →
  fs (repo_root +:+ "/" +:+ Compat.py_sdk_rel) = Some py_text →
  result (Compat.main repo_root fs) =
  let '(missing, extra, mismatches) :=
    Compat.compare_apis (Compat.extract_js_methods js_text)
                        (Compat.extract_python_methods py_text) in
  result (Compat.report missing extra mismatches).
Proof.
  intros Hjs Hpy. unfold Compat.main. rewrite Hjs, Hpy.
  repeat rewrite result_bind.
  by destruct (Compat.compare_apis _ _) as [[missing extra] mismatches].
Qed.

Lemma expected_py_methods_get (js_methods : dict (list string)) key :
  dict_get key (Compat.expected_py_methods js_methods) =
  snd <$> last (filter (λ e, Compat.js_to_python_name e.1 = key) js_methods).
Proof.
  induction js_methods as [|[name params] js IH] using rev_ind; [done|].
  rewrite expected_py_methods_snoc, dict_get_set, filter_app, last_app, IH.
  rewrite filter_cons, filter_nil. cbn [fst].
  case_decide; by cbn.
Qed.

(** C1, as the code has it.  The occurrences compared on the canonical
    side are those that the table of expected names holds under the key: the
    occurrences of the last raw name that normalizes to it.  The count of a
    parameter list is the number of its non-blank pieces between commas,
    every comma cutting, taken on the target side after the type hints are
    deleted.  For every key of both sides, every pair of such an occurrence
    on the canonical side and an occurrence on the target side whose counts
    differ leaves a mismatch entry naming the key and the two counts; and,
    both files being there, the exit status is 1 exactly when the missing
    list is non-empty or a mismatch was recorded, and 0 otherwise. *)
Theorem compat_mismatches_and_verdict :
  (∀ (js_methods py_methods : dict (list string)) key
     (js_params py_params_list : list string) js_param_str py_param_str,
     dict_get key (Compat.expected_py_methods js_methods) = Some js_params →
     dict_get key py_methods = Some py_params_list →
     js_param_str ∈ js_params →
     py_param_str ∈ py_params_list →
     Compat.js_param_count js_param_str
       ≠ Compat.py_param_count py_param_str →
     Compat.mismatch_line key (Compat.js_param_count js_param_str)
                          (Compat.py_param_count py_param_str)
     ∈ (Compat.compare_apis js_methods py_methods).2)
  ∧ (∀ repo_root (fs : filesystem) js_text py_text,
       fs (repo_root +:+ "/" +:+ "circular-js.xml") = Some js_text →
       fs (repo_root +:+ "/" +:+ Compat.py_sdk_rel) = Some py_text →
       let r := Compat.compare_apis (Compat.extract_js_methods js_text)
                                    (Compat.extract_python_methods py_text) in
       (result (Compat.main repo_root fs) = 1 ↔ r.1.1 ≠ [] ∨ r.2 ≠ [])
       ∧ (result (Compat.main repo_root fs) = 0 ↔ r.1.1 = [] ∧ r.2 = []))
  ∧ (∀ (js_methods : dict (list string)) key,
       dict_get key (Compat.expected_py_methods js_methods) =
       snd <$> last (filter (λ e, Compat.js_to_python_name e.1 = key)
                            js_methods)).
Proof.
  split; [apply compare_apis_mismatch|].
  split; [|apply expected_py_methods_get].
  intros repo_root fs js_text py_text Hjs Hpy r.
  rewrite (main_result _ _ _ _ Hjs Hpy). fold r.
  destruct r as [[missing extra] mismatches]. cbn [fst snd].
  rewrite report_result.
  destruct missing, mismatches; cbn; split; split; intros H;
    try done; try lia; try (destruct H; done); auto.
Qed.

Lemma compat_mismatches_and_verdict_witness :
  "get_wallet: JS has 2 params, Python has 1 params"
  ∈ (Compat.compare_apis
       [("getWallet", ["a, b"]); ("sendTransaction", ["a"])]
       [("get_wallet", ["a"]); ("send_transaction", ["a, b"])]).2
  ∧ result (Compat.main "/repo" spec_example_fs) = 1.
Proof.
  split.
  - apply (proj1 compat_mismatches_and_verdict
             [("getWallet", ["a, b"]); ("sendTransaction", ["a"])]
             [("get_wallet", ["a"]); ("send_transaction", ["a, b"])]
             "get_wallet" ["a, b"] ["a"] "a, b" "a");
      try reflexivity; try apply list_elem_of_here.
    vm_compute. lia.
  - apply (proj1 (proj2 compat_mismatches_and_verdict) "/repo"
             spec_example_fs _ _ eq_refl eq_refl).
    right. vm_compute. discriminate.
Defined.

(** C1 as stated fails, in two ways.  The counts are not the token counts of
    the signature parser: the destructured parameter [[a, b]] is one token
    and the target's [x, y] are two, yet both count two and no mismatch is
    recorded.  And not every occurrence recorded under a key is compared:
    getWallet(a, b) is recorded in the canonical set and normalizes to
    get_wallet, the target's get_wallet has one parameter, yet the later
    GetWallet(a) takes its place and no mismatch is recorded.  Both runs end
    with status 0. *)
Lemma unequal_arities_not_recorded :
  (let js_methods := Compat.extract_js_methods "foo([a, b]) { }" in
   let py_methods := Compat.extract_python_methods "def foo(self, x, y):" in
   js_methods = [("foo", ["[a, b]"])]
   ∧ py_methods = [("foo", ["x, y"])]
   ∧ length (spec_parse "[a, b]") = 1
   ∧ length (spec_parse "x, y") = 2
   ∧ Compat.compare_apis js_methods py_methods = ([], [], [])
   ∧ result (Compat.main "/repo" destructured_fs) = 0)
  ∧ (let js_methods :=
       Compat.extract_js_methods "getWallet(a, b) { }
GetWallet(a) { }" in
     let py_methods :=
       Compat.extract_python_methods "def get_wallet(self, a):" in
     dict_get "getWallet" js_methods = Some ["a, b"]
     ∧ Compat.js_to_python_name "getWallet" = "get_wallet"
     ∧ dict_get "get_wallet" py_methods = Some ["a"]
     ∧ length (spec_parse "a, b") = 2
     ∧ length (spec_parse "a") = 1
     ∧ Compat.js_param_count "a, b" = 2
     ∧ Compat.py_param_count "a" = 1
     ∧ Compat.compare_apis js_methods py_methods = ([], [], [])
     ∧ result (Compat.main "/repo" collision_fs) = 0).
Proof. split; cbn zeta; split_and!; by vm_compute. Qed.

(** ** Mode B: extra names *)

Lemma dict_get_app k {V} (d d' : dict V) :
  dict_get k (d ++ d') =
  match dict_get k d with Some v => Some v | None => dict_get k d' end.
Proof.
  induction d as [|[k0 v0] d IH]; cbn; [done|].
  by destruct (String.eqb k0 k).
Qed.

(** One more name on the target side, unknown to the reference, changes
    neither the missing names nor the mismatches. *)
Lemma compare_apis_extra (js_methods py_methods : dict (list string))
    name occurrences :
  name ∉ dict_keys (Compat.expected_py_methods js_methods) →
  name ∉ dict_keys py_methods →
  let r := Compat.compare_apis js_methods py_methods in
  let r' := Compat.compare_apis js_methods
              (py_methods ++ [(name, occurrences)]) in
  r'.1.1 = r.1.1 ∧ r'.2 = r.2 ∧ name ∈ r'.1.2.
Proof.
  intros Hjs Hpy. unfold Compat.compare_apis. cbn [fst snd].
  set (J := list_to_set (dict_keys (Compat.expected_py_methods js_methods))
            : gset string).
  set (P := list_to_set (dict_keys py_methods) : gset string).
  assert (name ∉ J) as HJ by (unfold J; by rewrite elem_of_list_to_set).
  assert (list_to_set (dict_keys (py_methods ++ [(name, occurrences)]))
          = P ∪ {[name]} :> gset string) as ->.
  { unfold dict_keys. rewrite fmap_app, list_to_set_app_L. cbn.
    by rewrite union_empty_r_L. }
  assert (J ∖ (P ∪ {[name]}) = J ∖ P) as ->.
  { apply set_eq. intros x.
    rewrite !elem_of_difference, elem_of_union, elem_of_singleton.
    split; [tauto|]. intros [Hx Hnx]. split; [done|].
    intros [?| ->]; tauto. }
  assert (J ∩ (P ∪ {[name]}) = J ∩ P) as ->.
  { apply set_eq. intros x.
    rewrite !elem_of_intersection, elem_of_union, elem_of_singleton.
    split; [|tauto]. intros [Hx [?| ->]]; tauto. }
  split_and!; [done| |].
  - apply Forall_bind_ext, Forall_forall. intros method Hm.
    apply elem_of_elements, elem_of_intersection in Hm as [_ Hm].
    apply elem_of_list_to_set, dict_get_keys in Hm as [v Hv].
    unfold Compat.method_mismatches. by rewrite dict_get_app, Hv.
  - rewrite sorted_elem_of, elem_of_elements.
    rewrite elem_of_difference, elem_of_union, elem_of_singleton. tauto.
Qed.

(** C5: names found in the target and not in the reference are shown for
    information and never weigh on the verdict: the exit status of a run is
    that of the report, whatever the list of extra names is put in its place;
    one more extra declaration in the target leaves the missing names, the
    mismatches and so the exit status as they were; and a report with extra
    names and nothing else ends with status 0. *)
Theorem extra_methods_never_fail repo_root (fs : filesystem)
    js_text py_text name occurrences (extra' : list string) :
  fs (repo_root +:+ "/" +:+ "circular-js.xml") = Some js_text →
  fs (repo_root +:+ "/" +:+ Compat.py_sdk_rel) = Some py_text →
  let js_methods := Compat.extract_js_methods js_text in
  let py_methods := Compat.extract_python_methods py_text in
  name ∉ dict_keys (Compat.expected_py_methods js_methods) →
  name ∉ dict_keys py_methods →
  let r := Compat.compare_apis js_methods py_methods in
  let r' := Compat.compare_apis js_methods
              (py_methods ++ [(name, occurrences)]) in
  result (Compat.main repo_root fs) = result (Compat.report r.1.1 extra' r.2)
  ∧ name ∈ r'.1.2
  ∧ result (Compat.report r'.1.1 r'.1.2 r'.2)
    = result (Compat.main repo_root fs)
  ∧ result (Compat.report [] extra' []) = 0.
Proof.
  intros Hjs Hpy js_methods py_methods Hname_js Hname_py r r'.
  destruct (compare_apis_extra js_methods py_methods name occurrences
              Hname_js Hname_py) as (Hmissing & Hmismatches & Hextra).
  fold r r' in Hmissing, Hmismatches, Hextra.
  rewrite (main_result _ _ _ _ Hjs Hpy).
  fold js_methods py_methods r.
  rewrite Hmissing, Hmismatches.
  destruct r as [[missing extra] mismatches]. cbn [fst snd].
  by rewrite !report_result.
Qed.

Lemma extra_methods_never_fail_witness :
  Compat.compare_apis (Compat.extract_js_methods "getWallet(a) { }")
    (Compat.extract_python_methods "def get_wallet(self, a):
def get_balance(self, a):")
  = ([], ["get_balance"], [])
  ∧ result (Compat.main "/repo" extra_example_fs)
    = result (Compat.report [] ["anything"; "else"] [])
  ∧ result (Compat.main "/repo" extra_example_fs) = 0.
Proof.
  pose proof (extra_methods_never_fail "/repo" extra_example_fs _ _
                "get_nonce" ["a"] ["anything"; "else"] eq_refl eq_refl) as H.
  cbn zeta in H.
  destruct H as (H1 & _ & _ & H4).
  - vm_compute. intros [H|[]]%list_elem_of_In. discriminate H.
  - vm_compute. intros [H|[H|[]]]%list_elem_of_In; discriminate H.
  - split_and!; [by vm_compute|exact H1|]. rewrite H1. exact H4.
Defined.

(** ** Mode A: expected surface, missing names and verdict *)

Lemma extract_all_result (fs : filesystem) (configs : dict Audit.config) :
  result (Audit.extract_all fs configs) =
  foldl (λ all_methods e,
           dict_set e.1 (result (Audit.extract_methods fs e.1 e.2))
                    all_methods)
        [] configs.
Proof.
  unfold Audit.extract_all. rewrite for_each_result.
  apply foldl_ext. intros all_methods [lang cfg].
  by rewrite !result_bind.
Qed.

(** What the table of sets holds for a language: the set extracted with the
    last profile of that name. *)
Lemma extract_all_get (fs : filesystem) (configs : dict Audit.config) lang :
  dict_get lang (result (Audit.extract_all fs configs)) =
  (λ e, result (Audit.extract_methods fs e.1 e.2))
    <$> last (filter (λ e, e.1 = lang) configs).
Proof.
  rewrite extract_all_result.
  induction configs as [|[lang' cfg] configs IH] using rev_ind; [done|].
  rewrite foldl_snoc, dict_get_set, filter_app, last_app, IH.
  rewrite filter_cons, filter_nil. cbn [fst snd].
  case_decide; by cbn.
Qed.

Lemma expected_surface_union (all_methods : dict (gset string)) :
  Audit.expected_surface all_methods = ⋃ dict_values all_methods.
Proof.
  unfold Audit.expected_surface.
  induction (dict_values all_methods) as [|X Xs IH] using rev_ind; [done|].
  rewrite foldl_snoc, IH, union_list_app_L. cbn.
  by rewrite union_empty_r_L.
Qed.

Lemma missing_of_set (expected methods : gset string) :
  list_to_set (Audit.missing_of expected methods) = expected ∖ methods.
Proof.
  unfold Audit.missing_of. apply set_eq. intros x.
  by rewrite elem_of_list_to_set, sorted_elem_of, elem_of_elements.
Qed.

Lemma check_language_result all_methods expected has_issues lang :
  result (Audit.check_language all_methods expected has_issues lang) =
  has_issues
  || truthy_list (Audit.missing_of expected
                    (default ∅ (dict_get lang all_methods))).
Proof.
  unfold Audit.check_language.
  destruct (truthy_list _); repeat rewrite result_bind; cbn.
  - by rewrite orb_true_r.
  - by rewrite orb_false_r.
Qed.

Lemma audit_result (all_methods : dict (gset string)) :
  result (Audit.audit all_methods) =
  if existsb (λ lang,
                truthy_list
                  (Audit.missing_of (Audit.expected_surface all_methods)
                     (default ∅ (dict_get lang all_methods))))
             (sorted (dict_keys all_methods))
  then 1 else 0.
Proof.
  unfold Audit.audit. repeat rewrite result_bind.
  rewrite for_each_result. cbn [result_ret].
  set (E := Audit.expected_surface all_methods).
  assert (∀ l acc,
            foldl (λ a x, result (Audit.check_language all_methods E a x))
                  acc l
            = acc || existsb (λ lang,
                      truthy_list (Audit.missing_of E
                        (default ∅ (dict_get lang all_methods)))) l) as ->.
  { induction l as [|x l IH]; intros acc; cbn [foldl existsb].
    - by rewrite orb_false_r.
    - by rewrite IH, check_language_result, orb_assoc. }
  cbn [orb]. by destruct (existsb _ _).
Qed.

Lemma main_with_result configs fs :
  result (Audit.main_with configs fs) =
  result (Audit.audit (result (Audit.extract_all fs configs))).
Proof. unfold Audit.main_with. by repeat rewrite result_bind. Qed.

Lemma audit_fails_iff (all_methods : dict (gset string)) :
  result (Audit.audit all_methods) = 1 ↔
  ∃ lang methods,
    dict_get lang all_methods = Some methods
    ∧ Audit.missing_of (Audit.expected_surface all_methods) methods ≠ [].
Proof.
  rewrite audit_result.
  destruct (existsb _ _) eqn:He.
  - split; [intros _|done].
    apply existsb_exists in He as (lang & Hin & Hmiss).
    apply list_elem_of_In, sorted_elem_of, dict_get_keys in Hin
      as [methods Hget].
    exists lang, methods. split; [done|].
    rewrite Hget in Hmiss. cbn in Hmiss. by destruct (Audit.missing_of _ _).
  - split; [done|]. intros (lang & methods & Hget & Hmiss).
    exfalso. apply not_true_iff_false in He. apply He.
    apply existsb_exists. exists lang. split.
    + apply list_elem_of_In, sorted_elem_of, dict_get_keys. by rewrite Hget.
    + rewrite Hget. cbn. by destruct (Audit.missing_of _ _).
Qed.

(** C2: in the surface audit the expected surface is the union of the
    languages' key sets, the missing names of a language are the expected
    surface minus its own keys, and the exit status is 1 exactly when some
    language has a missing name, 0 otherwise.  For the profiles A = {foo,
    bar}, B = {foo}, C = {foo, bar, baz} the expected surface is {foo, bar,
    baz}, A misses baz, B misses bar and baz, C misses nothing, and the run
    fails. *)
Theorem surface_audit_verdict :
  (∀ (configs : dict Audit.config) (fs : filesystem),
     let all_methods := result (Audit.extract_all fs configs) in
     let expected := Audit.expected_surface all_methods in
     expected = ⋃ dict_values all_methods
     ∧ (∀ methods,
          list_to_set (Audit.missing_of expected methods)
          = expected ∖ methods)
     ∧ (result (Audit.main_with configs fs) = 1 ↔
        ∃ lang methods,
          dict_get lang all_methods = Some methods
          ∧ Audit.missing_of expected methods ≠ [])
     ∧ (result (Audit.main_with configs fs) = 0
        ∨ result (Audit.main_with configs fs) = 1))
  ∧ (let all_methods := result (Audit.extract_all abc_fs abc_configs) in
     let expected := Audit.expected_surface all_methods in
     all_methods = [("A", list_to_set ["foo"; "bar"]);
                    ("B", list_to_set ["foo"]);
                    ("C", list_to_set ["foo"; "bar"; "baz"])]
     ∧ expected = list_to_set ["foo"; "bar"; "baz"]
     ∧ Audit.missing_of expected (list_to_set ["foo"; "bar"]) = ["baz"]
     ∧ Audit.missing_of expected (list_to_set ["foo"]) = ["bar"; "baz"]
     ∧ Audit.missing_of expected (list_to_set ["foo"; "bar"; "baz"]) = []
     ∧ result (Audit.main_with abc_configs abc_fs) = 1).
Proof.
  split.
  - intros configs fs all_methods expected. split_and!.
    + apply expected_surface_union.
    + apply missing_of_set.
    + rewrite main_with_result. apply audit_fails_iff.
    + rewrite main_with_result, audit_result. destruct (existsb _ _); auto.
  - split_and!; by vm_compute.
Qed.

(** ** Unavailable source texts *)

Lemma elem_of_output_bind_l {A B} (m : io A) (f : A → io B) line :
  line ∈ output m → line ∈ output (m ≫= f).
Proof. rewrite output_bind, elem_of_app. auto. Qed.

Lemma elem_of_output_bind_r {A B} (m : io A) (f : A → io B) line :
  line ∈ output (f (result m)) → line ∈ output (m ≫= f).
Proof. rewrite output_bind, elem_of_app. auto. Qed.

Lemma extract_all_keys (fs : filesystem) (configs : dict Audit.config) lang :
  lang ∈ dict_keys (result (Audit.extract_all fs configs))
  ↔ lang ∈ dict_keys configs.
Proof.
  rewrite <- dict_get_keys, extract_all_get, fmap_is_Some.
  unfold dict_keys. rewrite list_elem_of_fmap. split.
  - intros [e He]. apply last_Some_elem_of, list_elem_of_filter in He.
    exists e. by destruct He.
  - intros (e & -> & He).
    destruct (last _) as [e'|] eqn:Hlast; [by eauto|].
    apply last_None in Hlast.
    assert (e ∈ filter (λ e', e'.1 = e.1) configs) as Hin
      by by apply list_elem_of_filter.
    rewrite Hlast in Hin. by apply elem_of_nil in Hin.
Qed.

Lemma audit_output_verdict (all_methods : dict (gset string)) lang :
  lang ∈ dict_keys all_methods →
  verdict_line all_methods lang ∈ output (Audit.audit all_methods).
Proof.
  intros Hlang. unfold Audit.audit.
  do 3 apply elem_of_output_bind_r. apply elem_of_output_bind_l.
  apply (for_each_output_elem _ _ _ lang); [by apply sorted_elem_of|].
  intros has_issues. unfold Audit.check_language, verdict_line.
  destruct (truthy_list _); apply elem_of_output_bind_l, list_elem_of_here.
Qed.

Lemma audit_output_summary (all_methods : dict (gset string)) :
  (if Nat.eqb (result (Audit.audit all_methods)) 1
   then "⚠️  API SURFACE INCONSISTENCIES DETECTED"
   else "✅ ALL LANGUAGES HAVE CONSISTENT API SURFACE")
  ∈ output (Audit.audit all_methods).
Proof.
  unfold Audit.audit. repeat rewrite result_bind.
  do 3 apply elem_of_output_bind_r.
  rewrite output_bind, elem_of_app. right.
  apply elem_of_output_bind_r, elem_of_output_bind_l.
  destruct (result (for_each _ _ _)); cbn; apply list_elem_of_here.
Qed.

Lemma main_with_output_audit configs fs line :
  line ∈ output (Audit.audit (result (Audit.extract_all fs configs))) →
  line ∈ output (Audit.main_with configs fs).
Proof.
  intros H. unfold Audit.main_with.
  do 4 apply elem_of_output_bind_r. apply elem_of_output_bind_r.
  by do 2 apply elem_of_output_bind_r.
Qed.

Lemma main_with_output_warning configs (fs : filesystem) lang cfg :
  (lang, cfg) ∈ configs → fs (Audit.file cfg) = None →
  "⚠️  " +:+ lang +:+ ": File not found - " +:+ Audit.file cfg
  ∈ output (Audit.main_with configs fs).
Proof.
  intros Hin Hfile. unfold Audit.main_with.
  do 4 apply elem_of_output_bind_r. apply elem_of_output_bind_l.
  apply (for_each_output_elem _ _ _ (lang, cfg)); [done|].
  intros all_methods. apply elem_of_output_bind_l.
  unfold Audit.extract_methods. rewrite Hfile.
  apply elem_of_output_bind_l, list_elem_of_here.
Qed.

(** C4, as the code has it: in the surface audit an unavailable source text
    is not fatal: the language contributes the empty set, a warning is
    printed, every language of the table is still extracted and gets its
    verdict line, and the run ends with the summary and a status of 0 or 1.
    In the compatibility check an unavailable reference or SDK file ends the
    run at once: one error line, status 1, nothing extracted or compared. *)
Theorem unavailable_source_audit_proceeds_compat_stops
    (configs : dict Audit.config) (fs : filesystem) lang cfg lang' :
  (lang, cfg) ∈ configs →
  fs (Audit.file cfg) = None →
  lang' ∈ dict_keys configs →
  let warning :=
    "⚠️  " +:+ lang +:+ ": File not found - " +:+ Audit.file cfg in
  let all_methods := result (Audit.extract_all fs configs) in
  Audit.extract_methods fs lang cfg = ([warning], ∅)
  ∧ warning ∈ output (Audit.main_with configs fs)
  ∧ dict_get lang' all_methods
    = (λ e, result (Audit.extract_methods fs e.1 e.2))
        <$> last (filter (λ e, e.1 = lang') configs)
  ∧ verdict_line all_methods lang' ∈ output (Audit.main_with configs fs)
  ∧ (if Nat.eqb (result (Audit.main_with configs fs)) 1
     then "⚠️  API SURFACE INCONSISTENCIES DETECTED"
     else "✅ ALL LANGUAGES HAVE CONSISTENT API SURFACE")
    ∈ output (Audit.main_with configs fs)
  ∧ (result (Audit.main_with configs fs) = 0
     ∨ result (Audit.main_with configs fs) = 1)
  ∧ (∀ repo_root (fs' : filesystem),
       let js_xml := repo_root +:+ "/" +:+ "circular-js.xml" in
       let py_sdk := repo_root +:+ "/" +:+ Compat.py_sdk_rel in
       match fs' js_xml, fs' py_sdk with
       | None, _ =>
           Compat.main repo_root fs'
           = (["❌ Reference file not found: " +:+ js_xml], 1)
       | Some _, None =>
           Compat.main repo_root fs'
           = (["❌ Generated SDK not found: " +:+ py_sdk], 1)
       | Some _, Some _ => True
       end).
Proof.
  intros Hin Hfile Hlang' warning all_methods. split_and!.
  - unfold Audit.extract_methods. by rewrite Hfile.
  - by apply main_with_output_warning.
  - apply extract_all_get.
  - apply main_with_output_audit, audit_output_verdict.
    by apply extract_all_keys.
  - rewrite main_with_result.
    apply main_with_output_audit, audit_output_summary.
  - rewrite main_with_result, audit_result. destruct (existsb _ _); auto.
  - intros repo_root fs' js_xml py_sdk. unfold Compat.main.
    fold js_xml py_sdk.
    destruct (fs' js_xml); [|done]. by destruct (fs' py_sdk).
Qed.

Lemma unavailable_source_witness :
  "⚠️  B: File not found - b.py"
    ∈ output (Audit.main_with abc_configs abc_fs_without_b)
  ∧ "❌ B: Missing 3 methods"
    ∈ output (Audit.main_with abc_configs abc_fs_without_b)
  ∧ "✅ C: Complete (3 methods)"
    ∈ output (Audit.main_with abc_configs abc_fs_without_b)
  ∧ result (Audit.main_with abc_configs abc_fs_without_b) = 1.
Proof.
  assert (("B", Audit.Config "b.py" Audit.python_pattern ∅ "snake_case")
          ∈ abc_configs) as HB by (apply list_elem_of_In; cbn; auto).
  pose proof (unavailable_source_audit_proceeds_compat_stops
                abc_configs abc_fs_without_b "B" _ "B" HB eq_refl) as HlB.
  pose proof (unavailable_source_audit_proceeds_compat_stops
                abc_configs abc_fs_without_b "B" _ "C" HB eq_refl) as HlC.
  cbn zeta in HlB, HlC.
  destruct HlB as (_ & Hwarn & _ & HvB & _).
  { apply list_elem_of_In. cbn. auto. }
  destruct HlC as (_ & _ & _ & HvC & _).
  { apply list_elem_of_In. cbn. auto. }
  split_and!; [exact Hwarn|exact HvB|exact HvC|by vm_compute].
Defined.

(** C4 as stated fails for the compatibility check: with the reference file
    gone and the SDK there, the run prints one error line and stops with
    status 1; the SDK is not evaluated and no report follows, whereas an
    empty reference would have passed with status 0. *)
Lemma compat_stops_without_reference :
  let fs : filesystem := λ path,
    if String.eqb path
         "/repo/dist/circular-py/src/circular_protocol_api/client.py"
    then Some "def get_wallet(self, a):" else None in
  let fs_empty_reference : filesystem := λ path,
    if String.eqb path "/repo/circular-js.xml" then Some "" else fs path in
  Compat.main "/repo" fs
  = (["❌ Reference file not found: /repo/circular-js.xml"], 1)
  ∧ ("📊 Generated methods found: 1" ∉ output (Compat.main "/repo" fs))
  ∧ "📊 Generated methods found: 1"
    ∈ output (Compat.main "/repo" fs_empty_reference)
  ∧ result (Compat.main "/repo" fs_empty_reference) = 0.
Proof.
  cbn zeta. split_and!.
  - by vm_compute.
  - vm_compute. intros [H|[]]%list_elem_of_In. discriminate H.
  - apply list_elem_of_In. vm_compute. auto 10.
  - by vm_compute.
Qed.

(** ** Excluded and private names *)

Lemma spec_separate_head s :
  starts_with_underscore (str_lower (spec_separate None s))
  = starts_with_underscore s.
Proof.
  destruct s as [|c s]; [done|]. cbn. rewrite andb_false_r. cbn.
  apply lower_underscore.
Qed.

Lemma normalize_name_head raw from_case :
  starts_with_underscore (Audit.normalize_name raw from_case)
  = starts_with_underscore raw.
Proof.
  destruct (normalize_name_cases raw from_case) as [->| ->]; [done|].
  apply spec_separate_head.
Qed.

Lemma js_to_python_name_head raw :
  starts_with_underscore (Compat.js_to_python_name raw)
  = starts_with_underscore raw.
Proof.
  unfold Compat.js_to_python_name. rewrite sub_camel_boundary.
  apply spec_separate_head.
Qed.

Lemma extract_methods_elem (fs : filesystem) lang cfg key :
  key ∈ result (Audit.extract_methods fs lang cfg) →
  ∃ raw, kept_by cfg raw ∧ key = Audit.normalize_name raw (Audit.naming cfg).
Proof.
  unfold Audit.extract_methods. destruct (fs (Audit.file cfg)) as [content|].
  2:{ rewrite result_bind. cbn. by intros ?%not_elem_of_empty. }
  cbn. generalize (finditer (Audit.pattern cfg) content). intros ms.
  induction ms as [|m ms IH] using rev_ind.
  { by intros ?%not_elem_of_empty. }
  rewrite foldl_snoc. unfold Audit.add_method at 1.
  destruct (bool_decide _ && negb _) eqn:Hkeep; [|done].
  intros [Hk|Hk%elem_of_singleton]%elem_of_union; [by apply IH|].
  apply andb_true_iff in Hkeep as [Hex%bool_decide_eq_true Hus%negb_true_iff].
  by exists (group_str 1 m).
Qed.

Lemma dict_set_elem {V} k (v : V) d e :
  e ∈ dict_set k v d → e = (k, v) ∨ e ∈ d.
Proof.
  induction d as [|[k0 v0] d IH]; cbn.
  - intros ?%list_elem_of_singleton. auto.
  - destruct (String.eqb_spec k0 k) as [->|Hk].
    + intros [->|He]%elem_of_cons; [by left|]. right. by apply elem_of_cons; right.
    + intros [->|He]%elem_of_cons; [right; apply list_elem_of_here|].
      destruct (IH He); [by left|]. right. by apply elem_of_cons; right.
Qed.

Lemma dict_keys_elem {V} k (d : dict V) :
  k ∈ dict_keys d ↔ ∃ v, (k, v) ∈ d.
Proof.
  unfold dict_keys. rewrite list_elem_of_fmap. split.
  - intros ([k' v] & -> & He). by exists v.
  - intros [v He]. by exists (k, v).
Qed.

Lemma expected_surface_elem (fs : filesystem) configs key :
  key ∈ Audit.expected_surface (result (Audit.extract_all fs configs)) →
  ∃ lang cfg raw,
    (lang, cfg) ∈ configs ∧ kept_by cfg raw
    ∧ key = Audit.normalize_name raw (Audit.naming cfg).
Proof.
  rewrite expected_surface_union, extract_all_result.
  intros (X & HX & Hkey)%elem_of_union_list.
  unfold dict_values in HX. apply list_elem_of_fmap in HX as ([lang X'] & -> & HX).
  cbn in Hkey.
  assert (∃ cfg, (lang, cfg) ∈ configs
                 ∧ X' = result (Audit.extract_methods fs lang cfg))
    as (cfg & Hcfg & ->).
  { clear Hkey. revert HX.
    induction configs as [|[lang0 cfg0] configs IH] using rev_ind.
    { by intros ?%elem_of_nil. }
    rewrite foldl_snoc. cbn [fst snd].
    intros [[= -> ->]|HX]%dict_set_elem.
    - exists cfg0. split; [|done]. apply elem_of_app. right.
      apply list_elem_of_here.
    - destruct (IH HX) as (cfg & Hcfg & ->). exists cfg. split; [|done].
      apply elem_of_app. by left. }
  apply extract_methods_elem in Hkey as (raw & Hkept & ->).
  by exists lang, cfg, raw.
Qed.

Lemma dict_set_keys {V} k (v : V) d k' :
  k' ∈ dict_keys (dict_set k v d) → k' = k ∨ k' ∈ dict_keys d.
Proof.
  rewrite !dict_keys_elem. intros [v' [[= -> ->]|He]%dict_set_elem]; eauto.
Qed.

Lemma record_occurrence_keys methods name params k :
  k ∈ dict_keys (Compat.record_occurrence methods name params) →
  k = name ∨ k ∈ dict_keys methods.
Proof.
  unfold Compat.record_occurrence.
  destruct (dict_get name methods); apply dict_set_keys.
Qed.

Lemma extract_js_methods_keys content raw :
  raw ∈ dict_keys (Compat.extract_js_methods content) → js_kept raw.
Proof.
  unfold Compat.extract_js_methods.
  assert (∀ ms methods,
            (∀ k, k ∈ dict_keys methods → js_kept k) →
            ∀ k, k ∈ dict_keys (foldl Compat.add_js_match methods ms) →
                 js_kept k) as Hinner.
  { induction ms as [|m ms IH] using rev_ind; intros methods Hm k; [by auto|].
    rewrite foldl_snoc. unfold Compat.add_js_match at 1.
    destruct (bool_decide _ || _) eqn:Hskip; [by apply IH|].
    apply orb_false_iff in Hskip as [Hex%bool_decide_eq_false Hus].
    intros [->|Hk]%record_occurrence_keys; [done|by eapply IH]. }
  revert raw. generalize Compat.js_patterns. intros ps.
  induction ps as [|p ps IH] using rev_ind; intros raw.
  { by intros ?%elem_of_nil. }
  rewrite foldl_snoc. by apply Hinner.
Qed.

Lemma extract_python_methods_keys content raw :
  raw ∈ dict_keys (Compat.extract_python_methods content) →
  starts_with_underscore raw = false.
Proof.
  unfold Compat.extract_python_methods.
  generalize (finditer Compat.python_pattern content). intros ms.
  induction ms as [|m ms IH] using rev_ind.
  { by intros ?%elem_of_nil. }
  rewrite foldl_snoc. unfold Compat.add_python_match at 1.
  destruct (starts_with_underscore (group_str 1 m)) eqn:Hus; [done|].
  intros [->|Hk]%record_occurrence_keys; [done|by apply IH].
Qed.

Lemma expected_py_methods_keys (js_methods : dict (list string)) key :
  key ∈ dict_keys (Compat.expected_py_methods js_methods) →
  ∃ raw, raw ∈ dict_keys js_methods ∧ key = Compat.js_to_python_name raw.
Proof.
  induction js_methods as [|[name params] js IH] using rev_ind.
  { by intros ?%elem_of_nil. }
  rewrite expected_py_methods_snoc. unfold dict_keys at 2.
  setoid_rewrite fmap_app. setoid_rewrite elem_of_app.
  intros [->|Hk]%dict_set_keys.
  - exists name. split; [right; apply list_elem_of_here|done].
  - destruct (IH Hk) as (raw & Hraw & ->). exists raw. auto.
Qed.

(** Every name of the three lists of [compare_apis] is a key of one of the
    two sides. *)
Lemma compare_apis_members (js_methods py_methods : dict (list string)) :
  let r := Compat.compare_apis js_methods py_methods in
  (∀ key, key ∈ r.1.1 →
          key ∈ dict_keys (Compat.expected_py_methods js_methods))
  ∧ (∀ key, key ∈ r.1.2 → key ∈ dict_keys py_methods)
  ∧ (∀ line, line ∈ r.2 →
       ∃ key js_param_count py_param_count,
         line = Compat.mismatch_line key js_param_count py_param_count
         ∧ key ∈ dict_keys (Compat.expected_py_methods js_methods)
         ∧ key ∈ dict_keys py_methods).
Proof.
  unfold Compat.compare_apis. cbn [fst snd]. split_and!.
  - intros key. rewrite sorted_elem_of, elem_of_elements, elem_of_difference.
    rewrite elem_of_list_to_set. by intros [? _].
  - intros key. rewrite sorted_elem_of, elem_of_elements, elem_of_difference.
    rewrite elem_of_list_to_set. by intros [? _].
  - intros line (key & Hline & Hkey)%list_elem_of_bind.
    apply elem_of_elements, elem_of_intersection in Hkey as [HJ HP].
    apply elem_of_list_to_set in HJ, HP.
    unfold Compat.method_mismatches in Hline.
    apply list_elem_of_bind in Hline as (a & Hline & _).
    apply list_elem_of_bind in Hline as (b & Hline & _).
    case_decide; [|by apply elem_of_nil in Hline].
    apply list_elem_of_singleton in Hline. eauto 10.
Qed.

Lemma extract_methods_matched (fs : filesystem) lang cfg key :
  key ∈ result (Audit.extract_methods fs lang cfg) →
  ∃ content m,
    fs (Audit.file cfg) = Some content
    ∧ m ∈ finditer (Audit.pattern cfg) content
    ∧ kept_by cfg (group_str 1 m)
    ∧ key = Audit.normalize_name (group_str 1 m) (Audit.naming cfg).
Proof.
  unfold Audit.extract_methods. destruct (fs (Audit.file cfg)) as [content|].
  2:{ rewrite result_bind. cbn. by intros ?%not_elem_of_empty. }
  cbn. intros Hkey. exists content.
  assert (∃ m, m ∈ finditer (Audit.pattern cfg) content
               ∧ kept_by cfg (group_str 1 m)
               ∧ key = Audit.normalize_name (group_str 1 m)
                         (Audit.naming cfg)) as (m & ? & ? & ?);
    [|by exists m].
  revert Hkey. generalize (finditer (Audit.pattern cfg) content). intros ms.
  induction ms as [|m ms IH] using rev_ind.
  { by intros ?%not_elem_of_empty. }
  rewrite foldl_snoc. unfold Audit.add_method at 1.
  assert (∀ m', m' ∈ ms → m' ∈ ms ++ [m]) as Hleft
    by (intros; apply elem_of_app; by left).
  destruct (bool_decide _ && negb _) eqn:Hkeep.
  - intros [Hk|Hk%elem_of_singleton]%elem_of_union.
    + destruct (IH Hk) as (m' & ? & ? & ?). exists m'. auto.
    + apply andb_true_iff in Hkeep
        as [Hex%bool_decide_eq_true Hus%negb_true_iff].
      exists m. split; [apply elem_of_app; right; apply list_elem_of_here|].
      done.
  - intros Hk. destruct (IH Hk) as (m' & ? & ? & ?). exists m'. auto.
Qed.

Lemma expected_surface_matched (fs : filesystem) configs key :
  key ∈ Audit.expected_surface (result (Audit.extract_all fs configs)) →
  ∃ lang cfg content m,
    (lang, cfg) ∈ configs
    ∧ fs (Audit.file cfg) = Some content
    ∧ m ∈ finditer (Audit.pattern cfg) content
    ∧ kept_by cfg (group_str 1 m)
    ∧ key = Audit.normalize_name (group_str 1 m) (Audit.naming cfg).
Proof.
  rewrite expected_surface_union, extract_all_result.
  intros (X & HX & Hkey)%elem_of_union_list.
  unfold dict_values in HX.
  apply list_elem_of_fmap in HX as ([lang X'] & -> & HX).
  cbn in Hkey.
  assert (∃ cfg, (lang, cfg) ∈ configs
                 ∧ X' = result (Audit.extract_methods fs lang cfg))
    as (cfg & Hcfg & ->).
  { clear Hkey. revert HX.
    induction configs as [|[lang0 cfg0] configs IH] using rev_ind.
    { by intros ?%elem_of_nil. }
    rewrite foldl_snoc. cbn [fst snd].
    intros [[= -> ->]|HX]%dict_set_elem.
    - exists cfg0. split; [|done]. apply elem_of_app. right.
      apply list_elem_of_here.
    - destruct (IH HX) as (cfg & Hcfg & ->). exists cfg. split; [|done].
      apply elem_of_app. by left. }
  apply extract_methods_matched in Hkey as (content & m & ? & ? & ? & ?).
  by exists lang, cfg, content, m.
Qed.

Lemma foldl_add_js_match_keys ms methods raw :
  raw ∈ dict_keys (foldl Compat.add_js_match methods ms) →
  raw ∈ dict_keys methods
  ∨ ∃ m, m ∈ ms ∧ js_kept (group_str 1 m) ∧ raw = group_str 1 m.
Proof.
  induction ms as [|m ms IH] using rev_ind; [by left|].
  rewrite foldl_snoc. unfold Compat.add_js_match at 1.
  assert (raw ∈ dict_keys (foldl Compat.add_js_match methods ms) →
          raw ∈ dict_keys methods
          ∨ ∃ m', m' ∈ ms ++ [m] ∧ js_kept (group_str 1 m')
                  ∧ raw = group_str 1 m') as IH'.
  { intros [?|(m' & ? & ? & ?)]%IH; [by left|right].
    exists m'. split; [apply elem_of_app; by left|done]. }
  destruct (bool_decide _ || _) eqn:Hskip; [done|].
  apply orb_false_iff in Hskip as [Hex%bool_decide_eq_false Hus].
  intros [->|Hk]%record_occurrence_keys; [|by apply IH'].
  right. exists m. split; [apply elem_of_app; right; apply list_elem_of_here|].
  done.
Qed.

Lemma extract_js_methods_matched content raw :
  raw ∈ dict_keys (Compat.extract_js_methods content) →
  ∃ m, m ∈ js_matches content ∧ js_kept (group_str 1 m)
       ∧ raw = group_str 1 m.
Proof.
  unfold Compat.extract_js_methods, js_matches.
  induction Compat.js_patterns as [|pattern ps IH] using rev_ind.
  { by intros ?%elem_of_nil. }
  rewrite foldl_snoc, fmap_app, join_app. cbn. rewrite app_nil_r.
  intros [Hk|(m & ? & ? & ?)]%foldl_add_js_match_keys.
  - destruct (IH Hk) as (m & ? & ? & ?). exists m.
    split; [apply elem_of_app; by left|done].
  - exists m. split; [apply elem_of_app; by right|done].
Qed.

Lemma extract_python_methods_matched content raw :
  raw ∈ dict_keys (Compat.extract_python_methods content) →
  ∃ m, m ∈ finditer Compat.python_pattern content
       ∧ starts_with_underscore (group_str 1 m) = false
       ∧ raw = group_str 1 m.
Proof.
  unfold Compat.extract_python_methods.
  generalize (finditer Compat.python_pattern content). intros ms.
  induction ms as [|m ms IH] using rev_ind.
  { by intros ?%elem_of_nil. }
  rewrite foldl_snoc. unfold Compat.add_python_match at 1.
  assert (raw ∈ dict_keys (foldl Compat.add_python_match [] ms) →
          ∃ m', m' ∈ ms ++ [m]
                ∧ starts_with_underscore (group_str 1 m') = false
                ∧ raw = group_str 1 m') as IH'.
  { intros (m' & ? & ? & ?)%IH.
    exists m'. split; [apply elem_of_app; by left|done]. }
  destruct (starts_with_underscore (group_str 1 m)) eqn:Hus; [done|].
  intros [->|Hk]%record_occurrence_keys; [|by apply IH'].
  exists m. split; [apply elem_of_app; right; apply list_elem_of_here|done].
Qed.

Lemma expected_py_methods_matched js_text key :
  key ∈ dict_keys (Compat.expected_py_methods
                     (Compat.extract_js_methods js_text)) →
  starts_with_underscore key = false
  ∧ ∃ m, m ∈ js_matches js_text ∧ js_kept (group_str 1 m)
         ∧ key = Compat.js_to_python_name (group_str 1 m).
Proof.
  intros (raw & (m & Hm & Hkept & ->)%extract_js_methods_matched & ->)
    %expected_py_methods_keys.
  rewrite js_to_python_name_head. split; [exact (proj2 Hkept)|].
  by exists m.
Qed.

(** C7, as the code has it: the filter works inside each profile, before
    normalization, and nothing but what it lets through reaches a list.  A
    key in a missing list of the audit is the normalized form of a raw name
    that some profile matched in its text and kept (not in that profile's
    excluded set, no leading underscore); a name in the missing list of the
    compatibility check is the normalized form of a raw name that the
    reference extractor matched and kept, a name in the extra list is a raw
    name of the target that the target extractor matched and kept, and a
    mismatch entry is about a key that is both.  So no key with a leading
    underscore appears in any of these lists, and a name of a profile's
    excluded set appears in one only when another profile, or another raw
    spelling with the same normalized form, yields it. *)
Theorem filtered_names_stay_out
    (configs : dict Audit.config) (fs : filesystem) js_text py_text :
  let expected :=
    Audit.expected_surface (result (Audit.extract_all fs configs)) in
  let js_methods := Compat.extract_js_methods js_text in
  let py_methods := Compat.extract_python_methods py_text in
  let r := Compat.compare_apis js_methods py_methods in
  (∀ (methods : gset string) key,
     key ∈ Audit.missing_of expected methods →
     starts_with_underscore key = false
     ∧ ∃ lang cfg content m,
         (lang, cfg) ∈ configs
         ∧ fs (Audit.file cfg) = Some content
         ∧ m ∈ finditer (Audit.pattern cfg) content
         ∧ kept_by cfg (group_str 1 m)
         ∧ key = Audit.normalize_name (group_str 1 m) (Audit.naming cfg)
         ∧ ∀ cfg0, key ∈ Audit.exclude cfg0 →
                   cfg ≠ cfg0 ∨ group_str 1 m ≠ key)
  ∧ (∀ key, key ∈ r.1.1 →
       starts_with_underscore key = false
       ∧ ∃ m, m ∈ js_matches js_text ∧ js_kept (group_str 1 m)
              ∧ key = Compat.js_to_python_name (group_str 1 m))
  ∧ (∀ key, key ∈ r.1.2 →
       starts_with_underscore key = false
       ∧ ∃ m, m ∈ finditer Compat.python_pattern py_text
              ∧ key = group_str 1 m)
  ∧ (∀ line, line ∈ r.2 →
       ∃ key js_param_count py_param_count m_js m_py,
         line = Compat.mismatch_line key js_param_count py_param_count
         ∧ starts_with_underscore key = false
         ∧ m_js ∈ js_matches js_text ∧ js_kept (group_str 1 m_js)
         ∧ key = Compat.js_to_python_name (group_str 1 m_js)
         ∧ m_py ∈ finditer Compat.python_pattern py_text
         ∧ key = group_str 1 m_py).
Proof.
  intros expected js_methods py_methods r.
  destruct (compare_apis_members js_methods py_methods)
    as (Hmissing & Hextra & Hmismatch).
  fold r in Hmissing, Hextra, Hmismatch.
  split_and!.
  - intros methods key Hkey.
    apply sorted_elem_of, elem_of_elements, elem_of_difference in Hkey
      as [Hkey _].
    apply expected_surface_matched in Hkey
      as (lang & cfg & content & m & ? & ? & ? & Hk & ->).
    rewrite normalize_name_head. split; [exact (proj2 Hk)|].
    exists lang, cfg, content, m. split_and!; try done.
    intros cfg0 Hex.
    destruct (decide (group_str 1 m
                      = Audit.normalize_name (group_str 1 m)
                          (Audit.naming cfg))) as [Heq|Hne]; [|by right].
    left. intros ->. rewrite <- Heq in Hex. by destruct Hk.
  - intros key Hk. by apply expected_py_methods_matched, Hmissing.
  - intros key (m & Hm & Hus & ->)%Hextra%extract_python_methods_matched.
    split; [done|]. by exists m.
  - intros line (key & a & b & -> & HJ & HP)%Hmismatch.
    apply expected_py_methods_matched in HJ as (Hus & m_js & ? & ? & Hkey).
    apply extract_python_methods_matched in HP as (m_py & ? & _ & ?).
    by exists key, a, b, m_js, m_py.
Qed.

Lemma filtered_names_stay_out_witness :
  let js_text := "getWallet(a, b) { }
sendTransaction(a) { }" in
  let py_text := "def get_wallet(self, a):
def get_balance(self):" in
  (∃ lang cfg content m,
     (lang, cfg) ∈ abc_configs
     ∧ abc_fs (Audit.file cfg) = Some content
     ∧ m ∈ finditer (Audit.pattern cfg) content
     ∧ kept_by cfg (group_str 1 m)
     ∧ "baz" = Audit.normalize_name (group_str 1 m) (Audit.naming cfg))
  ∧ (∃ m, m ∈ js_matches js_text ∧ js_kept (group_str 1 m)
          ∧ "send_transaction" = Compat.js_to_python_name (group_str 1 m))
  ∧ (∃ m, m ∈ finditer Compat.python_pattern py_text
          ∧ "get_balance" = group_str 1 m)
  ∧ (∃ key js_param_count py_param_count m_js m_py,
       "get_wallet: JS has 2 params, Python has 1 params"
       = Compat.mismatch_line key js_param_count py_param_count
       ∧ starts_with_underscore key = false
       ∧ m_js ∈ js_matches js_text ∧ js_kept (group_str 1 m_js)
       ∧ key = Compat.js_to_python_name (group_str 1 m_js)
       ∧ m_py ∈ finditer Compat.python_pattern py_text
       ∧ key = group_str 1 m_py).
Proof.
  intros js_text py_text.
  destruct (filtered_names_stay_out abc_configs abc_fs js_text py_text)
    as (HA & HB & HC & HD).
  split_and!.
  - destruct (HA (list_to_set ["foo"; "bar"]) "baz")
      as (_ & lang & cfg & content & m & ? & ? & ? & ? & ? & _).
    { vm_compute. apply list_elem_of_here. }
    by exists lang, cfg, content, m.
  - apply (HB "send_transaction"). vm_compute. apply list_elem_of_here.
  - apply (HC "get_balance"). vm_compute. apply list_elem_of_here.
  - apply (HD "get_wallet: JS has 2 params, Python has 1 params").
    vm_compute. apply list_elem_of_here.
Defined.

(** C7 as stated fails: a name of a profile's excluded set does appear in a
    list when another profile, which does not exclude it, declares it.  The
    TypeScript profile excludes constructor, the Go text declares
    Constructor, and the audit reports constructor as missing from
    TypeScript; likewise a target that declares constructor, which only the
    reference extractor skips, gets it listed as extra. *)
Lemma excluded_name_in_missing_list :
  let all_methods := result (Audit.extract_all constructor_fs Audit.SDK_CONFIGS) in
  (∃ cfg, dict_get "typescript" Audit.SDK_CONFIGS = Some cfg
          ∧ "constructor" ∈ Audit.exclude cfg)
  ∧ dict_get "typescript" all_methods = Some {[ "get_wallet" ]}
  ∧ Audit.missing_of (Audit.expected_surface all_methods) {[ "get_wallet" ]}
    = ["constructor"]
  ∧ "❌ typescript: Missing 1 methods" ∈ output (Audit.main constructor_fs)
  ∧ "     - constructor" ∈ output (Audit.main constructor_fs)
  ∧ Compat.compare_apis
      (Compat.extract_js_methods "constructor(url) { }
getWallet(a) { }")
      (Compat.extract_python_methods "def constructor(self, url):
def get_wallet(self, a):")
    = ([], ["constructor"], []).
Proof.
  cbn zeta. split_and!.
  - eexists. split; [reflexivity|]. cbn [Audit.exclude].
    apply elem_of_list_to_set, list_elem_of_here.
  - by vm_compute.
  - by vm_compute.
  - apply list_elem_of_In. vm_compute. auto 40.
  - apply list_elem_of_In. vm_compute. auto 40.
  - by vm_compute.
Qed.

(** ** The type-hint pattern *)

Lemma run_after p s : run p s +:+ after p s = s.
Proof.
  induction s as [|a s IH]; [done|]. cbn.
  destruct (p a); [|done]. by rewrite append_cons, IH.
Qed.

Lemma after_length p s : (String.length (after p s) ≤ String.length s)%nat.
Proof. induction s as [|a s IH]; cbn; [lia|]. destruct (p a); cbn; lia. Qed.

Lemma rep_greedy_star_cons p (k : mstate → option mstate) prev caps a s :
  rep true p k 0 prev caps (String a s) =
  if p a then
    match rep true p k 0 (Some a) caps s with
    | Some r => Some r
    | None => k (MState prev (String a s) caps)
    end
  else k (MState prev (String a s) caps).
Proof. reflexivity. Qed.

(** A greedy repetition before a continuation that accepts whatever it is
    given reads the whole run. *)
Lemma rep_greedy_star p (k : mstate → option mstate) prev caps s :
  (∀ st, k st = Some st) →
  rep true p k 0 prev caps s
  = Some (MState (prev_after prev (run p s)) (after p s) caps).
Proof.
  intros Hk. revert prev. induction s as [|a s IH]; intros prev; cbn.
  - apply Hk.
  - destruct (p a); [|apply Hk]. by rewrite IH.
Qed.

Lemma rep_greedy_plus p (k : mstate → option mstate) prev caps s :
  (∀ st, k st = Some st) →
  rep true p k 1 prev caps s
  = if head_is p s
    then Some (MState (prev_after prev (run p s)) (after p s) caps)
    else None.
Proof.
  intros Hk. destruct s as [|a s]; cbn; [done|].
  destruct (p a); [|done]. by rewrite rep_greedy_star.
Qed.

(** Whitespace, then a run of a class that contains the whitespace: however
    the whitespace is given back, the match ends where the run ends. *)
Lemma rep_spaces_then_run p (k : mstate → option mstate) prev caps s :
  (∀ st, k st = Some st) →
  (∀ a, Char.is_space a = true → p a = true) →
  rep true Char.is_space
      (λ st, rep true p k 1 (m_prev st) (m_caps st) (m_rest st))
      0 prev caps s
  = if head_is p s
    then Some (MState (prev_after prev (run p s)) (after p s) caps)
    else None.
Proof.
  intros Hk Hsub. revert prev.
  induction s as [|a s IH]; intros prev; [done|].
  rewrite rep_greedy_star_cons, IH. cbv beta. cbn [m_prev m_caps m_rest].
  rewrite (rep_greedy_plus p k prev caps (String a s) Hk).
  destruct (Char.is_space a) eqn:Hsp; [|done].
  cbn. rewrite (Hsub a Hsp).
  by destruct (head_is p s).
Qed.

Lemma space_not_comma_eq a :
  Char.is_space a = true → Compat.not_comma_eq a = true.
Proof. by destruct a as [[] [] [] [] [] [] [] []]. Qed.

(** Where the type-hint pattern matches and what it takes: a colon followed
    by at least one character other than comma and equals sign, up to the
    next comma or equals sign. *)
Lemma match_at_type_hint prev s :
  match_at Compat.type_hint false prev s =
  match s with
  | String c t =>
      if Ascii.eqb c ":" && head_is Compat.not_comma_eq t
      then Some (MatchObj (String ":" (run Compat.not_comma_eq t)) [])
      else None
  | "" => None
  end.
Proof.
  destruct s as [|c t]; [done|].
  unfold match_at, Compat.type_hint. cbn [seq rmatch m_rest andb].
  destruct (Ascii.eqb_spec c ":") as [->|Hc]; [|done].
  unfold Compat.spaces0. cbn [andb rmatch step m_prev m_caps m_rest].
  rewrite (rep_spaces_then_run Compat.not_comma_eq); [|done|].
  2:{ apply space_not_comma_eq. }
  destruct (head_is Compat.not_comma_eq t); [|done]. cbn [m_rest m_caps].
  do 2 f_equal.
  rewrite <- (run_after Compat.not_comma_eq t) at 1.
  apply (consumed_append (String ":" (run Compat.not_comma_eq t))).
Qed.

Lemma scan_skip r x y prev :
  scan r (String.length x) prev (x +:+ y) = scan r 0 (prev_after prev x) y.
Proof.
  revert prev. induction x as [|a x IH]; intros prev; [done|].
  rewrite append_cons. cbn [String.length]. by rewrite scan_S_cons, IH.
Qed.

Lemma erase_hints_in_hint s :
  erase_hints true s = erase_hints false (after Compat.not_comma_eq s).
Proof.
  induction s as [|c s IH]; [done|]. cbn.
  destruct (Compat.not_comma_eq c) eqn:Hc; [done|].
  cbn [erase_hints].
  destruct (Ascii.eqb_spec c ":") as [->|]; [by vm_compute in Hc|done].
Qed.

Lemma sub_type_hint_scan n :
  ∀ s prev, (String.length s ≤ n)%nat →
    rebuild [] (scan Compat.type_hint 0 prev s) = erase_hints false s.
Proof.
  induction n as [|n IH]; intros s prev Hn.
  { destruct s; [|cbn in Hn; lia]. by rewrite scan_0_nil, match_at_type_hint. }
  destruct s as [|c t]; [by rewrite scan_0_nil, match_at_type_hint|].
  cbn in Hn. rewrite scan_0_cons, match_at_type_hint.
  cbn [erase_hints].
  destruct (Ascii.eqb c ":" && head_is Compat.not_comma_eq t).
  - cbn [m_whole String.length rebuild expand].
    rewrite <- (run_after Compat.not_comma_eq t) at 2.
    rewrite scan_skip, append_nil_l, IH, erase_hints_in_hint; [done|].
    pose proof (after_length Compat.not_comma_eq t). lia.
  - cbn [rebuild]. rewrite IH by lia. done.
Qed.

Lemma sub_type_hint s :
  sub Compat.type_hint [] s = erase_hints false s.
Proof. by apply (sub_type_hint_scan (String.length s)). Qed.

(** ** Counting parameters *)

Lemma space_not_comma c : Char.is_space c = true → Ascii.eqb c "," = false.
Proof. by destruct c as [[] [] [] [] [] [] [] []]. Qed.

Lemma space_not_colon c : Char.is_space c = true → Ascii.eqb c ":" = false.
Proof. by destruct c as [[] [] [] [] [] [] [] []]. Qed.

Lemma lstrip_all_space s : all_space s = true → lstrip s = "".
Proof.
  induction s as [|c s IH]; [done|]. cbn.
  intros [Hc Hs]%andb_true_iff. rewrite Hc. auto.
Qed.

Lemma strip_all_space s : all_space s = true → strip s = "".
Proof. intros H. unfold strip. by rewrite lstrip_all_space. Qed.

Lemma all_space_no_comma s : all_space s = true → no_comma s = true.
Proof.
  induction s as [|c s IH]; [done|]. cbn.
  intros [Hc Hs]%andb_true_iff. by rewrite (space_not_comma c Hc), IH.
Qed.

Lemma split_no_comma s : no_comma s = true → split "," s = [s].
Proof.
  induction s as [|c s IH]; [done|]. cbn.
  intros [Hc Hs]%andb_true_iff. apply negb_true_iff in Hc.
  by rewrite Hc, IH.
Qed.

Lemma split_piece p rest :
  no_comma p = true → split "," (p +:+ String "," rest) = p :: split "," rest.
Proof.
  induction p as [|c p IH]; [done|]. rewrite append_cons. cbn.
  intros [Hc Hp]%andb_true_iff. apply negb_true_iff in Hc.
  by rewrite Hc, IH.
Qed.

Lemma split_join pieces :
  pieces ≠ [] → Forall (λ p, no_comma p = true) pieces →
  split "," (join "," pieces) = pieces.
Proof.
  induction pieces as [|p [|q pieces] IH]; [done| |].
  - intros _ [Hp _]%Forall_cons. by apply split_no_comma.
  - intros _ [Hp Hrest]%Forall_cons. cbn [join].
    rewrite split_piece by done. f_equal. by apply IH.
Qed.

(** The guard on the empty string in the count is redundant. *)
Lemma count_params_split s :
  Compat.count_params s
  = length (filter (λ p, truthy (strip p) = true) (split "," s)).
Proof. unfold Compat.count_params. by destruct s. Qed.

Lemma count_params_blank s : all_space s = true → Compat.count_params s = 0.
Proof.
  intros Hs. rewrite count_params_split.
  rewrite split_no_comma by by apply all_space_no_comma.
  rewrite filter_cons, filter_nil, decide_False; [done|].
  by rewrite strip_all_space.
Qed.

Lemma erase_hints_all_space s :
  all_space s = true → erase_hints false s = s.
Proof.
  induction s as [|c s IH]; [done|]. cbn.
  intros [Hc Hs]%andb_true_iff.
  by rewrite (space_not_colon c Hc), IH.
Qed.

Lemma head_is_append (x y : string) :
  head_is Compat.not_comma_eq (x +:+ String "," y)
  = head_is Compat.not_comma_eq x.
Proof. by destruct x. Qed.

Lemma erase_hints_piece b p rest :
  no_comma p = true →
  erase_hints b (p +:+ String "," rest)
  = erase_hints b p +:+ String "," (erase_hints false rest).
Proof.
  revert b. induction p as [|c p IH]; intros b Hp.
  - by destruct b.
  - cbn in Hp. apply andb_true_iff in Hp as [Hc Hp].
    rewrite append_cons. cbn [erase_hints].
    rewrite head_is_append.
    destruct b.
    + destruct (Compat.not_comma_eq c); rewrite IH by done; done.
    + destruct (Ascii.eqb c ":" && _); rewrite IH by done; done.
Qed.

Lemma erase_hints_no_comma b p :
  no_comma p = true → no_comma (erase_hints b p) = true.
Proof.
  revert b. induction p as [|c p IH]; intros b Hp; [done|].
  cbn in Hp. apply andb_true_iff in Hp as [Hc Hp]. cbn [erase_hints].
  destruct b.
  - destruct (Compat.not_comma_eq c); [by apply IH|].
    cbn. by rewrite Hc, IH.
  - destruct (Ascii.eqb c ":" && _); [by apply IH|].
    cbn. by rewrite Hc, IH.
Qed.

Lemma erase_hints_join pieces :
  Forall (λ p, no_comma p = true) pieces →
  erase_hints false (join "," pieces)
  = join "," (erase_hints false <$> pieces).
Proof.
  induction pieces as [|p [|q pieces] IH]; [done..|].
  intros [Hp Hrest]%Forall_cons.
  change (join "," (p :: q :: pieces))
    with (p +:+ String "," (join "," (q :: pieces))).
  rewrite erase_hints_piece by done. rewrite IH by done. done.
Qed.

Lemma rstrip_head c s :
  Char.is_space c = false → truthy (rstrip (String c s)) = true.
Proof. intros Hc. cbn. rewrite Hc. by destruct (rstrip s). Qed.

Lemma strip_cons_space c s :
  Char.is_space c = true → strip (String c s) = strip s.
Proof. intros Hc. unfold strip. cbn. by rewrite Hc. Qed.

Lemma strip_cons_head c s :
  Char.is_space c = false → truthy (strip (String c s)) = true.
Proof. intros Hc. unfold strip. cbn [lstrip]. rewrite Hc. by apply rstrip_head. Qed.

Lemma flat_param_nonblank p :
  flat_param p = true →
  truthy (strip p) = true ∧ truthy (strip (erase_hints false p)) = true.
Proof.
  unfold flat_param. intros [_ Hhead]%andb_true_iff.
  induction p as [|c p IH]; [done|].
  cbn [lstrip] in Hhead. cbn [erase_hints].
  destruct (Char.is_space c) eqn:Hc.
  - rewrite (space_not_colon c Hc). cbn [andb].
    rewrite !strip_cons_space by done. by apply IH.
  - cbn in Hhead. apply negb_true_iff in Hhead. rewrite Hhead. cbn [andb].
    by rewrite !strip_cons_head.
Qed.

Lemma filter_all {A} (P : A → Prop) `{∀ x, Decision (P x)} (l : list A) :
  Forall P l → filter P l = l.
Proof.
  induction 1 as [|x l Hx Hl IH]; [done|].
  by rewrite filter_cons, decide_True, IH.
Qed.

Lemma forallb_Forall {A} (f : A → bool) (l : list A) :
  forallb f l = true → Forall (λ x, f x = true) l.
Proof.
  induction l as [|x l IH]; cbn; [done|].
  intros [Hx Hl]%andb_true_iff. auto.
Qed.

Lemma flat_params_counts pieces :
  forallb flat_param pieces = true →
  Compat.js_param_count (join "," pieces) = length pieces
  ∧ Compat.py_param_count (join "," pieces) = length pieces.
Proof.
  intros Hflat. destruct (decide (pieces = [])) as [->|Hne]; [done|].
  apply forallb_Forall in Hflat.
  assert (Forall (λ p, no_comma p = true) pieces) as Hnc.
  { eapply Forall_impl; [exact Hflat|]. unfold flat_param.
    by intros p [? _]%andb_true_iff. }
  unfold Compat.js_param_count, Compat.py_param_count.
  rewrite sub_type_hint, !count_params_split, erase_hints_join by done.
  rewrite !split_join; try done; try by destruct pieces.
  2:{ apply Forall_fmap. eapply Forall_impl; [exact Hnc|].
      intros p Hp. by apply erase_hints_no_comma. }
  rewrite !filter_all, ?length_fmap; [done| |].
  - apply Forall_fmap. eapply Forall_impl; [exact Hflat|].
    intros p Hp. by apply flat_param_nonblank.
  - eapply Forall_impl; [exact Hflat|].
    intros p Hp. by apply flat_param_nonblank.
Qed.

(** C3, as the code has it: the arity of a parameter list is the number of
    pieces between commas that are not blank once stripped, every comma
    cutting, nested or not; on the target side each type hint (a colon, then
    the characters up to the next comma or equals sign) is deleted first.  An
    empty or blank text counts zero, and a list whose pieces hold no comma
    and each start with a name counts one per piece, whatever annotation or
    default value follows the name: three for "a, b: SomeType, c=1". *)
Theorem arity_counts_comma_pieces (pieces : list string) (blank : string) :
  forallb flat_param pieces = true →
  all_space blank = true →
  Compat.js_param_count (join "," pieces) = length pieces
  ∧ Compat.py_param_count (join "," pieces) = length pieces
  ∧ Compat.js_param_count blank = 0
  ∧ Compat.py_param_count blank = 0
  ∧ (∀ s, Compat.js_param_count s
          = length (filter (λ p, truthy (strip p) = true) (split "," s)))
  ∧ (∀ s, Compat.py_param_count s
          = length (filter (λ p, truthy (strip p) = true)
                           (split "," (erase_hints false s))))
  ∧ Compat.py_param_count "a, b: SomeType, c=1" = 3
  ∧ Compat.js_param_count "" = 0
  ∧ Compat.py_param_count "" = 0.
Proof.
  intros Hflat Hblank.
  destruct (flat_params_counts pieces Hflat) as [Hjs Hpy].
  split_and!; [done|done| | | | |by vm_compute..].
  - by apply count_params_blank.
  - unfold Compat.py_param_count.
    rewrite sub_type_hint, erase_hints_all_space by done.
    by apply count_params_blank.
  - intros s. apply count_params_split.
  - intros s. unfold Compat.py_param_count.
    by rewrite sub_type_hint, count_params_split.
Qed.

Lemma arity_counts_comma_pieces_witness :
  Compat.js_param_count "a, b: SomeType, c=1" = 3
  ∧ Compat.py_param_count "a, b: SomeType, c=1" = 3
  ∧ Compat.js_param_count "   " = 0
  ∧ Compat.py_param_count "   " = 0.
Proof.
  destruct (arity_counts_comma_pieces ["a"; " b: SomeType"; " c=1"] "   "
              eq_refl eq_refl) as (Hjs & Hpy & Hjs0 & Hpy0 & _).
  split_and!; [exact Hjs|exact Hpy|exact Hjs0|exact Hpy0].
Defined.

(** C3 as stated fails: a comma nested inside brackets does cut.  The
    annotated parameter [x: Dict[str, int]] is one parameter for the spec's
    parser and counts two on the target side; the destructured parameter
    [[a, b]] is one parameter and counts two on the reference side. *)
Lemma nested_comma_splits :
  Compat.py_param_count "x: Dict[str, int]" = 2
  ∧ length (spec_parse "x: Dict[str, int]") = 1
  ∧ Compat.js_param_count "[a, b]" = 2
  ∧ length (spec_parse "[a, b]") = 1.
Proof. split_and!; by vm_compute. Qed.

(** * Further properties of the two scripts *)

(** ** Counting parameters, piece by piece *)

Lemma split_nonempty s : split "," s ≠ [].
Proof.
  destruct s as [|c s]; [done|]. cbn.
  destruct (Ascii.eqb c ","); [done|]. by destruct (split "," s).
Qed.

Lemma split_comma s1 s2 :
  split "," (s1 +:+ String "," s2) = split "," s1 ++ split "," s2.
Proof.
  induction s1 as [|c s1 IH]; [done|]. rewrite append_cons. cbn.
  rewrite IH. destruct (Ascii.eqb c ","); [done|].
  pose proof (split_nonempty s1). by destruct (split "," s1).
Qed.

Lemma erase_hints_comma b s1 s2 :
  erase_hints b (s1 +:+ String "," s2)
  = erase_hints b s1 +:+ String "," (erase_hints false s2).
Proof.
  revert b. induction s1 as [|c s1 IH]; intros b.
  - by destruct b.
  - rewrite append_cons. cbn [erase_hints]. rewrite head_is_append.
    destruct b.
    + destruct (Compat.not_comma_eq c); by rewrite IH.
    + destruct (Ascii.eqb c ":" && _); by rewrite IH.
Qed.

Lemma count_params_comma s1 s2 :
  Compat.count_params (s1 +:+ String "," s2)
  = Compat.count_params s1 + Compat.count_params s2.
Proof.
  by rewrite !count_params_split, split_comma, filter_app, length_app.
Qed.

(** X1: both parameter counts are additive over a comma: the count of two
    texts joined by a comma is the sum of their counts, whatever the texts
    hold; so a comma at the end or at the start of a parameter list adds
    nothing. *)
Theorem param_counts_additive :
  (∀ s1 s2,
     Compat.js_param_count (s1 +:+ String "," s2)
     = Compat.js_param_count s1 + Compat.js_param_count s2)
  ∧ (∀ s1 s2,
       Compat.py_param_count (s1 +:+ String "," s2)
       = Compat.py_param_count s1 + Compat.py_param_count s2)
  ∧ (∀ s, Compat.js_param_count (s +:+ ",") = Compat.js_param_count s
          ∧ Compat.py_param_count (s +:+ ",") = Compat.py_param_count s
          ∧ Compat.js_param_count (String "," s) = Compat.js_param_count s
          ∧ Compat.py_param_count (String "," s) = Compat.py_param_count s).
Proof.
  assert (∀ s1 s2,
            Compat.py_param_count (s1 +:+ String "," s2)
            = Compat.py_param_count s1 + Compat.py_param_count s2) as Hpy.
  { intros s1 s2. unfold Compat.py_param_count.
    by rewrite !sub_type_hint, erase_hints_comma, count_params_comma. }
  split_and!; [apply count_params_comma|exact Hpy|].
  intros s. split_and!.
  - unfold Compat.js_param_count. rewrite count_params_comma.
    replace (Compat.count_params "") with 0 by by vm_compute. lia.
  - rewrite Hpy.
    replace (Compat.py_param_count "") with 0 by by vm_compute. lia.
  - apply (count_params_comma "" s).
  - apply (Hpy "" s).
Qed.

(** ** What normalization changes *)

Lemma str_lower_no_upper s : no_upper (str_lower s) = true.
Proof.
  induction s as [|c s IH]; [done|]. cbn. by rewrite lower_not_upper, IH.
Qed.

Lemma str_lower_length s : String.length (str_lower s) = String.length s.
Proof. induction s as [|c s IH]; cbn; by f_equal. Qed.

Lemma spec_separate_remove before s :
  remove_char "_" (str_lower (spec_separate before s))
  = remove_char "_" (str_lower s).
Proof.
  revert before. induction s as [|c s IH]; intros before; [done|].
  cbn [spec_separate]. destruct (Char.is_upper c && _); cbn; by rewrite IH.
Qed.

Lemma spec_separate_length s :
  (∀ before,
     (String.length s ≤ String.length (spec_separate before s)
      ≤ 2 * String.length s)%nat)
  ∧ (String.length (spec_separate None s) ≤ 2 * String.length s - 1)%nat.
Proof.
  assert (∀ t before,
            (String.length t ≤ String.length (spec_separate before t)
             ≤ 2 * String.length t)%nat) as Hall.
  { induction t as [|c t IH]; intros b; cbn [spec_separate]; [cbn; lia|].
    specialize (IH (Some c)).
    destruct (Char.is_upper c && _); cbn [String.length]; lia. }
  split; [apply Hall|].
  destruct s as [|c s]; [cbn; lia|].
  cbn [spec_separate from_option]. rewrite andb_false_r.
  specialize (Hall s (Some c)). cbn [String.length]. lia.
Qed.

(** X2: normalizing a camel-style name changes nothing but the case of its
    letters and the underscores: with the underscores taken out, the key is
    the lowercased name with its underscores taken out.  The key holds no
    uppercase letter, is at least as long as the name and gains at most one
    separator per character after the first.  With a naming tag that is none
    of the three known ones the name is returned as it is. *)
Theorem normalize_only_case_and_separators :
  (∀ x,
     let key := Compat.js_to_python_name x in
     remove_char "_" key = remove_char "_" (str_lower x)
     ∧ no_upper key = true
     ∧ (String.length x ≤ String.length key ≤ 2 * String.length x - 1)%nat)
  ∧ (∀ x,
       Audit.normalize_name x "camelCase" = Compat.js_to_python_name x
       ∧ Audit.normalize_name x "PascalCase" = Compat.js_to_python_name x)
  ∧ (∀ x from_case,
       Audit.normalize_name x from_case = x
       ∨ from_case = "camelCase" ∨ from_case = "PascalCase").
Proof.
  split_and!.
  - intros x key. unfold key, Compat.js_to_python_name.
    rewrite sub_camel_boundary. split_and!.
    + apply spec_separate_remove.
    + apply str_lower_no_upper.
    + rewrite str_lower_length. apply (spec_separate_length x).
    + rewrite str_lower_length. apply (spec_separate_length x).
  - done.
  - intros x from_case. unfold Audit.normalize_name.
    destruct (String.eqb from_case "snake_case"); [by left|].
    destruct (String.eqb_spec from_case "camelCase"); [by auto|].
    destruct (String.eqb_spec from_case "PascalCase"); [by auto|].
    by left.
Qed.

(** ** The three lists of the comparison *)

Lemma sorted_NoDup (X : gset string) : NoDup (sorted (elements X)).
Proof.
  unfold sorted. rewrite merge_sort_Permutation. apply NoDup_elements.
Qed.

Lemma sorted_StronglySorted (l : list string) :
  StronglySorted String.le (sorted l).
Proof. apply StronglySorted_merge_sort; apply _. Qed.

(** X3: the missing names are exactly the keys of the reference absent from
    the target, the extra names exactly the names of the target that are no
    key of the reference; both lists are in ascending order, without
    repetition, and no name is in both. *)
Theorem missing_and_extra_exact
    (js_methods py_methods : dict (list string)) :
  let expected := Compat.expected_py_methods js_methods in
  let r := Compat.compare_apis js_methods py_methods in
  (∀ key, key ∈ r.1.1 ↔ key ∈ dict_keys expected ∧ key ∉ dict_keys py_methods)
  ∧ (∀ key, key ∈ r.1.2 ↔
            key ∈ dict_keys py_methods ∧ key ∉ dict_keys expected)
  ∧ StronglySorted String.le r.1.1 ∧ NoDup r.1.1
  ∧ StronglySorted String.le r.1.2 ∧ NoDup r.1.2
  ∧ (∀ key, key ∈ r.1.1 → key ∉ r.1.2).
Proof.
  intros expected r.
  assert (∀ key, key ∈ r.1.1 ↔
                 key ∈ dict_keys expected ∧ key ∉ dict_keys py_methods) as H1.
  { intros key. unfold r, Compat.compare_apis. cbn [fst snd].
    by rewrite sorted_elem_of, elem_of_elements, elem_of_difference,
      !elem_of_list_to_set. }
  assert (∀ key, key ∈ r.1.2 ↔
                 key ∈ dict_keys py_methods ∧ key ∉ dict_keys expected) as H2.
  { intros key. unfold r, Compat.compare_apis. cbn [fst snd].
    by rewrite sorted_elem_of, elem_of_elements, elem_of_difference,
      !elem_of_list_to_set. }
  split_and!; [exact H1|exact H2|..].
  - apply sorted_StronglySorted.
  - apply sorted_NoDup.
  - apply sorted_StronglySorted.
  - apply sorted_NoDup.
  - intros key [_ Hk]%H1 [Hk' _]%H2. done.
Qed.

(** X4: a mismatch entry is recorded for the pairs of occurrences under a
    common key whose counts differ, and for nothing else: every entry names
    such a key and the two differing counts of such a pair; so the list is
    empty exactly when all pairs under all common keys agree. *)
Theorem mismatches_exact (js_methods py_methods : dict (list string)) :
  let expected := Compat.expected_py_methods js_methods in
  let r := Compat.compare_apis js_methods py_methods in
  (∀ line,
     line ∈ r.2 ↔
     ∃ key js_params py_params_list js_param_str py_param_str,
       dict_get key expected = Some js_params
       ∧ dict_get key py_methods = Some py_params_list
       ∧ js_param_str ∈ js_params
       ∧ py_param_str ∈ py_params_list
       ∧ Compat.js_param_count js_param_str
         ≠ Compat.py_param_count py_param_str
       ∧ line = Compat.mismatch_line key
                  (Compat.js_param_count js_param_str)
                  (Compat.py_param_count py_param_str))
  ∧ (r.2 = [] ↔
     ∀ key js_params py_params_list js_param_str py_param_str,
       dict_get key expected = Some js_params →
       dict_get key py_methods = Some py_params_list →
       js_param_str ∈ js_params →
       py_param_str ∈ py_params_list →
       Compat.js_param_count js_param_str
       = Compat.py_param_count py_param_str).
Proof.
  intros expected r.
  assert (∀ line,
     line ∈ r.2 ↔
     ∃ key js_params py_params_list js_param_str py_param_str,
       dict_get key expected = Some js_params
       ∧ dict_get key py_methods = Some py_params_list
       ∧ js_param_str ∈ js_params
       ∧ py_param_str ∈ py_params_list
       ∧ Compat.js_param_count js_param_str
         ≠ Compat.py_param_count py_param_str
       ∧ line = Compat.mismatch_line key
                  (Compat.js_param_count js_param_str)
                  (Compat.py_param_count py_param_str)) as Hiff.
  { intros line. split.
    - unfold r, Compat.compare_apis. cbn [snd].
      intros (key & Hline & Hkey)%list_elem_of_bind.
      apply elem_of_elements, elem_of_intersection in Hkey as [HJ HP].
      apply elem_of_list_to_set, dict_get_keys in HJ as [jl Hjl].
      apply elem_of_list_to_set, dict_get_keys in HP as [pl Hpl].
      unfold Compat.method_mismatches in Hline.
      rewrite Hjl, Hpl in Hline. cbn [default] in Hline.
      apply list_elem_of_bind in Hline as (a & Hline & Ha).
      apply list_elem_of_bind in Hline as (b & Hline & Hb).
      case_decide; [|by apply elem_of_nil in Hline].
      apply list_elem_of_singleton in Hline.
      by exists key, jl, pl, a, b.
    - intros (key & jl & pl & a & b & Hjl & Hpl & Ha & Hb & Hne & ->).
      by eapply compare_apis_mismatch. }
  split; [exact Hiff|]. split.
  - intros Hnil key jl pl a b Hjl Hpl Ha Hb.
    destruct (decide (Compat.js_param_count a = Compat.py_param_count b))
      as [|Hne]; [done|].
    assert (Compat.mismatch_line key (Compat.js_param_count a)
              (Compat.py_param_count b) ∈ r.2) as Hin.
    { apply Hiff. by exists key, jl, pl, a, b. }
    rewrite Hnil in Hin. by apply elem_of_nil in Hin.
  - intros Hall. destruct r.2 as [|line l]; [done|].
    assert (line ∈ line :: l) as Hin by apply list_elem_of_here.
    apply Hiff in Hin as (key & jl & pl & a & b & Hjl & Hpl & Ha & Hb & Hne & _).
    destruct Hne. by eapply Hall.
Qed.

(** ** The tables the extractors build *)

Lemma lstrip_clean s :
  head_is Char.is_space (lstrip s) = false.
Proof.
  induction s as [|c s IH]; [done|]. cbn.
  destruct (Char.is_space c) eqn:Hc; [done|]. cbn. done.
Qed.

Lemma lstrip_id s : head_is Char.is_space s = false → lstrip s = s.
Proof. destruct s as [|c s]; [done|]. cbn. by intros ->. Qed.

Lemma rstrip_clean s :
  head_is Char.is_space s = false → head_is Char.is_space (rstrip s) = false.
Proof.
  destruct s as [|c s]; [done|]. cbn. intros Hc. rewrite Hc.
  by destruct (rstrip s).
Qed.

Lemma rstrip_idemp s : rstrip (rstrip s) = rstrip s.
Proof.
  induction s as [|c s IH]; [done|]. cbn.
  destruct (rstrip s) as [|c' r] eqn:Hr.
  - destruct (Char.is_space c) eqn:Hc; [done|]. cbn. by rewrite Hc.
  - change (rstrip (String c (String c' r)))
      with (match rstrip (String c' r) with
            | "" => if Char.is_space c then "" else String c ""
            | r0 => String c r0
            end).
    by rewrite IH.
Qed.

Lemma strip_idemp s : strip (strip s) = strip s.
Proof.
  unfold strip.
  rewrite (lstrip_id (rstrip (lstrip s)))
    by apply rstrip_clean, lstrip_clean.
  apply rstrip_idemp.
Qed.

Lemma dict_set_keys_eq {V} k (v : V) (d : dict V) :
  dict_keys (dict_set k v d)
  = if decide (k ∈ dict_keys d) then dict_keys d else dict_keys d ++ [k].
Proof.
  unfold dict_keys. induction d as [|[k0 v0] d IH]; cbn.
  - rewrite decide_False; [done|]. apply not_elem_of_nil.
  - destruct (String.eqb_spec k0 k) as [->|Hk]; cbn.
    + rewrite decide_True; [done|]. apply list_elem_of_here.
    + rewrite IH. destruct (decide (k ∈ d.*1)) as [Hin|Hin].
      * rewrite decide_True; [done|]. by apply elem_of_cons; right.
      * rewrite decide_False; [done|].
        intros [?|?]%elem_of_cons; [congruence|done].
Qed.

Lemma dict_set_NoDup {V} k (v : V) (d : dict V) :
  NoDup (dict_keys d) → NoDup (dict_keys (dict_set k v d)).
Proof.
  intros Hd. rewrite dict_set_keys_eq. case_decide; [done|].
  apply NoDup_app. split_and!; [done| |apply NoDup_singleton].
  intros x Hx ->%list_elem_of_singleton. done.
Qed.

Lemma dict_get_elem {V} k (v : V) (d : dict V) :
  dict_get k d = Some v → (k, v) ∈ d.
Proof.
  induction d as [|[k0 v0] d IH]; cbn; [done|].
  destruct (String.eqb_spec k0 k) as [->|Hk].
  - intros [= ->]. apply list_elem_of_here.
  - intros H. apply elem_of_cons; right. by apply IH.
Qed.

Lemma record_occurrence_ok methods name params :
  strip params = params →
  table_ok methods →
  table_ok (Compat.record_occurrence methods name params).
Proof.
  intros Hp [Hnd Hall]. unfold Compat.record_occurrence.
  rewrite Forall_forall in Hall.
  destruct (dict_get name methods) as [l|] eqn:Hget; split;
    try (by apply dict_set_NoDup);
    apply Forall_forall; intros e [->|He]%dict_set_elem; cbn [snd];
    try (by apply Hall).
  - apply dict_get_elem, Hall in Hget as [_ Hl]. cbn in Hl. split.
    + by destruct l.
    + apply Forall_app. split; [done|]. by apply Forall_singleton.
  - split; [done|]. by apply Forall_singleton.
Qed.

Lemma occurrences_total_set methods name (l : list string) :
  occurrences_total (dict_set name l methods) + length
    (default [] (dict_get name methods))
  = occurrences_total methods + length l.
Proof.
  unfold occurrences_total, dict_values.
  induction methods as [|[k0 v0] d IH]; cbn; [lia|].
  destruct (String.eqb k0 name); cbn; lia.
Qed.

Lemma record_occurrence_total methods name params :
  occurrences_total (Compat.record_occurrence methods name params)
  = S (occurrences_total methods).
Proof.
  unfold Compat.record_occurrence.
  destruct (dict_get name methods) as [l|] eqn:Hget.
  - pose proof (occurrences_total_set methods name (l ++ [params])) as H.
    rewrite Hget, length_app in H. cbn in H. lia.
  - pose proof (occurrences_total_set methods name [params]) as H.
    rewrite Hget in H. cbn in H. lia.
Qed.

Lemma extract_js_methods_flat content :
  Compat.extract_js_methods content
  = foldl Compat.add_js_match [] (js_matches content).
Proof.
  unfold Compat.extract_js_methods, js_matches.
  induction Compat.js_patterns as [|pattern ps IH] using rev_ind; [done|].
  rewrite foldl_snoc, fmap_app, join_app, foldl_app, IH. cbn.
  by rewrite app_nil_r.
Qed.

Lemma add_js_match_cases methods m :
  (js_recorded m
   ∧ Compat.add_js_match methods m
     = Compat.record_occurrence methods (group_str 1 m)
         (strip (group_str 2 m)))
  ∨ (¬ js_recorded m ∧ Compat.add_js_match methods m = methods).
Proof.
  unfold Compat.add_js_match, js_recorded, js_kept.
  destruct (bool_decide _) eqn:Hex; cbn [orb].
  - right. split; [|done]. apply bool_decide_eq_true in Hex. tauto.
  - apply bool_decide_eq_false in Hex.
    destruct (starts_with_underscore _) eqn:Hus.
    + right. split; [|done]. intros [_ ?]. congruence.
    + left. done.
Qed.

Lemma add_python_match_cases methods m :
  (python_recorded m
   ∧ ∃ params, Compat.add_python_match methods m
       = Compat.record_occurrence methods (group_str 1 m) (strip params))
  ∨ (¬ python_recorded m ∧ Compat.add_python_match methods m = methods).
Proof.
  unfold Compat.add_python_match, python_recorded.
  destruct (starts_with_underscore _) eqn:Hus.
  - right. split; [|done]. congruence.
  - left. split; [done|]. by eexists.
Qed.

(** X5: the tables of both extractors hold every name once, with at least
    one occurrence, and every parameter text without leading or trailing
    whitespace; and they hold exactly one occurrence per recorded match (a
    match whose name the filter keeps): none is lost, none is counted
    twice. *)
Theorem extraction_tables_well_formed content :
  table_ok (Compat.extract_js_methods content)
  ∧ table_ok (Compat.extract_python_methods content)
  ∧ occurrences_total (Compat.extract_js_methods content)
    = length (filter js_recorded (js_matches content))
  ∧ occurrences_total (Compat.extract_python_methods content)
    = length (filter python_recorded
                (finditer Compat.python_pattern content)).
Proof.
  assert (table_ok []) as Hnil.
  { split; [apply NoDup_nil_2|apply Forall_nil_2]. }
  rewrite extract_js_methods_flat. unfold Compat.extract_python_methods.
  generalize (js_matches content) (finditer Compat.python_pattern content).
  intros js_ms py_ms. split_and!.
  - induction js_ms as [|m ms IH] using rev_ind; [done|].
    rewrite foldl_snoc.
    destruct (add_js_match_cases (foldl Compat.add_js_match [] ms) m)
      as [[_ ->]|[_ ->]]; [|done].
    apply record_occurrence_ok; [apply strip_idemp|done].
  - induction py_ms as [|m ms IH] using rev_ind; [done|].
    rewrite foldl_snoc.
    destruct (add_python_match_cases (foldl Compat.add_python_match [] ms) m)
      as [[_ [params ->]]|[_ ->]]; [|done].
    apply record_occurrence_ok; [apply strip_idemp|done].
  - induction js_ms as [|m ms IH] using rev_ind; [done|].
    rewrite foldl_snoc, filter_app, length_app, <- IH.
    rewrite filter_cons, filter_nil.
    destruct (add_js_match_cases (foldl Compat.add_js_match [] ms) m)
      as [[Hm ->]|[Hm ->]].
    + rewrite decide_True by done. rewrite record_occurrence_total.
      cbn. lia.
    + rewrite decide_False by done. cbn. lia.
  - induction py_ms as [|m ms IH] using rev_ind; [done|].
    rewrite foldl_snoc, filter_app, length_app, <- IH.
    rewrite filter_cons, filter_nil.
    destruct (add_python_match_cases (foldl Compat.add_python_match [] ms) m)
      as [[Hm [params ->]]|[Hm ->]].
    + rewrite decide_True by done. rewrite record_occurrence_total.
      cbn. lia.
    + rewrite decide_False by done. cbn. lia.
Qed.

(** ** The audit: what a language's set holds *)

Lemma foldl_add_method_elem cfg ms key :
  key ∈ foldl (Audit.add_method cfg) ∅ ms ↔
  ∃ m, m ∈ ms ∧ kept_by cfg (group_str 1 m)
       ∧ key = Audit.normalize_name (group_str 1 m) (Audit.naming cfg).
Proof.
  induction ms as [|m ms IH] using rev_ind.
  { split; [by intros ?%not_elem_of_empty|].
    by intros (m & ?%elem_of_nil & _). }
  rewrite foldl_snoc. unfold Audit.add_method at 1.
  destruct (bool_decide _ && negb _) eqn:Hkeep.
  - apply andb_true_iff in Hkeep
      as [Hex%bool_decide_eq_true Hus%negb_true_iff].
    rewrite elem_of_union, elem_of_singleton, IH. split.
    + intros [(m' & Hm' & Hk)| ->].
      * exists m'. split; [apply elem_of_app; by left|done].
      * exists m. split; [apply elem_of_app; right; apply list_elem_of_here|].
        done.
    + intros (m' & [Hm'| ->%list_elem_of_singleton]%elem_of_app & Hk & ->).
      * left. by exists m'.
      * by right.
  - rewrite IH. split.
    + intros (m' & Hm' & Hk). exists m'. split; [apply elem_of_app; by left|done].
    + intros (m' & [Hm'| ->%list_elem_of_singleton]%elem_of_app & [Hex Hus] & ->).
      * by exists m'.
      * apply andb_false_iff in Hkeep as [Hk|Hk].
        -- apply bool_decide_eq_false in Hk. done.
        -- rewrite Hus in Hk. done.
Qed.

(** X6: the set a profile contributes holds a key exactly when the
    profile's text is there and one of the matches of its pattern has a name
    that the filter keeps and that normalizes to the key. *)
Theorem extract_methods_exact (fs : filesystem) lang cfg key :
  key ∈ result (Audit.extract_methods fs lang cfg) ↔
  ∃ content m,
    fs (Audit.file cfg) = Some content
    ∧ m ∈ finditer (Audit.pattern cfg) content
    ∧ kept_by cfg (group_str 1 m)
    ∧ key = Audit.normalize_name (group_str 1 m) (Audit.naming cfg).
Proof.
  unfold Audit.extract_methods.
  destruct (fs (Audit.file cfg)) as [content|].
  - cbn [result snd mret io_ret]. rewrite foldl_add_method_elem. split.
    + intros (m & Hm). by exists content, m.
    + intros (content' & m & [= <-] & Hm). by exists m.
  - rewrite result_bind. cbn. split; [by intros ?%not_elem_of_empty|].
    by intros (? & ? & ? & _).
Qed.

(** ** The audit: when it passes *)

Lemma dict_get_values {V} k (v : V) (d : dict V) :
  dict_get k d = Some v → v ∈ dict_values d.
Proof.
  intros H%dict_get_elem. unfold dict_values.
  by apply (list_elem_of_fmap_2 snd) in H.
Qed.

Lemma dict_values_get {V} (v : V) (d : dict V) :
  NoDup (dict_keys d) → v ∈ dict_values d → ∃ k, dict_get k d = Some v.
Proof.
  unfold dict_keys, dict_values.
  induction d as [|[k0 v0] d IH]; cbn; [by intros _ ?%elem_of_nil|].
  intros [Hk0 Hd]%NoDup_cons [->|Hv]%elem_of_cons.
  - exists k0. by rewrite String.eqb_refl.
  - destruct (IH Hd Hv) as [k Hk]. exists k.
    destruct (String.eqb_spec k0 k) as [->|]; [|done].
    destruct Hk0. apply dict_get_elem in Hk.
    by apply (list_elem_of_fmap_2 fst) in Hk.
Qed.

Lemma audit_passes_iff (all_methods : dict (gset string)) :
  result (Audit.audit all_methods) = 0 ↔
  ∀ lang methods,
    dict_get lang all_methods = Some methods →
    methods = Audit.expected_surface all_methods.
Proof.
  assert (result (Audit.audit all_methods) = 0
          ↔ ¬ result (Audit.audit all_methods) = 1) as ->.
  { rewrite audit_result. destruct (existsb _ _); split; try done; lia. }
  rewrite audit_fails_iff. split.
  - intros Hno lang methods Hget.
    apply set_eq. intros x. split.
    + intros Hx. rewrite expected_surface_union. apply elem_of_union_list.
      exists methods. split; [by eapply dict_get_values|done].
    + intros Hx. destruct (decide (x ∈ methods)) as [|Hnx]; [done|].
      destruct Hno. exists lang, methods. split; [done|].
      intros Hnil.
      assert (x ∈ Audit.missing_of (Audit.expected_surface all_methods)
                    methods) as Hin.
      { unfold Audit.missing_of.
        by rewrite sorted_elem_of, elem_of_elements, elem_of_difference. }
      rewrite Hnil in Hin. by apply elem_of_nil in Hin.
  - intros Hall (lang & methods & Hget & Hmiss). apply Hmiss.
    rewrite <- (Hall lang methods Hget).
    unfold Audit.missing_of.
    replace (methods ∖ methods) with (∅ : gset string).
    + by rewrite elements_empty.
    + apply set_eq. intros x. rewrite elem_of_difference.
      split; [by intros ?%not_elem_of_empty|tauto].
Qed.

Lemma extract_all_NoDup (fs : filesystem) (configs : dict Audit.config) :
  NoDup (dict_keys (result (Audit.extract_all fs configs))).
Proof.
  rewrite extract_all_result.
  induction configs as [|[lang cfg] configs IH] using rev_ind.
  { apply NoDup_nil_2. }
  rewrite foldl_snoc. by apply dict_set_NoDup.
Qed.

(** X7: the audit passes (status 0) exactly when every language of the
    table has the same set of keys, the expected surface; it fails as soon
    as two languages differ. *)
Theorem audit_passes_iff_all_equal (configs : dict Audit.config)
    (fs : filesystem) :
  let all_methods := result (Audit.extract_all fs configs) in
  (result (Audit.main_with configs fs) = 0 ↔
   ∀ lang methods,
     dict_get lang all_methods = Some methods →
     methods = Audit.expected_surface all_methods)
  ∧ (result (Audit.main_with configs fs) = 0 ↔
     ∀ lang lang' methods methods',
       dict_get lang all_methods = Some methods →
       dict_get lang' all_methods = Some methods' →
       methods = methods').
Proof.
  intros all_methods. rewrite main_with_result. fold all_methods.
  rewrite audit_passes_iff. split; [done|]. split.
  - intros Hall lang lang' methods methods' H1 H2.
    by rewrite (Hall _ _ H1), (Hall _ _ H2).
  - intros Heq lang methods Hget. apply set_eq. intros x. split.
    + intros Hx. rewrite expected_surface_union. apply elem_of_union_list.
      exists methods. split; [by eapply dict_get_values|done].
    + rewrite expected_surface_union.
      intros (X & HX & Hx)%elem_of_union_list.
      apply dict_values_get in HX as [lang' Hget'];
        [|apply extract_all_NoDup].
      by rewrite (Heq lang lang' methods X Hget Hget').
Qed.

(** ** The audit: what is printed for a language *)

Lemma for_each_print_output {A} (l : list A) (line : A → string) :
  output (for_each l (λ _ x, print (line x)) tt) = line <$> l.
Proof.
  induction l as [|x l IH]; [done|].
  cbn [for_each]. rewrite output_bind. cbn [output print fst].
  change (result (print (line x))) with tt. fold (@output unit).
  by rewrite IH.
Qed.

(** X8: the report of a language with missing names lists at most the first
    ten of them, in ascending order, then says in one line how many more
    there are when there are more than ten; a language takes two lines when
    complete and never more than thirteen. *)
Theorem check_language_output (all_methods : dict (gset string))
    (expected : gset string) (has_issues : bool) (lang : string) :
  let methods := default ∅ (dict_get lang all_methods) in
  let missing := Audit.missing_of expected methods in
  let lines :=
    output (Audit.check_language all_methods expected has_issues lang) in
  lines =
    (if truthy_list missing then
       ["❌ " +:+ lang +:+ ": Missing " +:+ pretty (length missing)
        +:+ " methods"]
       ++ ((λ method, "     - " +:+ method) <$> take 10 missing)
       ++ (if decide (10 < length missing)
           then ["     ... and " +:+ pretty (length missing - 10) +:+ " more"]
           else [])
       ++ [""]
     else ["✅ " +:+ lang +:+ ": Complete (" +:+ pretty (size methods)
           +:+ " methods)"; ""])
  ∧ (length lines ≤ 13)%nat
  ∧ StronglySorted String.le missing
  ∧ length missing = size (expected ∖ methods).
Proof.
  intros methods missing lines.
  assert (lines =
    (if truthy_list missing then
       ["❌ " +:+ lang +:+ ": Missing " +:+ pretty (length missing)
        +:+ " methods"]
       ++ ((λ method, "     - " +:+ method) <$> take 10 missing)
       ++ (if decide (10 < length missing)
           then ["     ... and " +:+ pretty (length missing - 10) +:+ " more"]
           else [])
       ++ [""]
     else ["✅ " +:+ lang +:+ ": Complete (" +:+ pretty (size methods)
           +:+ " methods)"; ""])) as Hlines.
  { unfold lines, Audit.check_language. fold methods. fold missing.
    destruct (truthy_list missing); [|done].
    rewrite !output_bind, for_each_print_output.
    destruct (decide (10 < length missing)); done. }
  split_and!; [done| | |].
  - rewrite Hlines. destruct (truthy_list missing); [|cbn; lia].
    rewrite !length_app, length_fmap, length_take.
    destruct (decide (10 < length missing)); cbn [length]; lia.
  - apply sorted_StronglySorted.
  - unfold missing, Audit.missing_of, sorted.
    by rewrite merge_sort_Permutation.
Qed.

(** ** The audit: a language without its text *)

Lemma filter_key_NoDup {V} (d : dict V) k v :
  NoDup (dict_keys d) → (k, v) ∈ d → filter (λ e, e.1 = k) d = [(k, v)].
Proof.
  unfold dict_keys.
  induction d as [|[k0 v0] d IH]; [by intros _ ?%elem_of_nil|].
  rewrite fmap_cons. cbn [fst].
  intros [Hk0 Hd]%NoDup_cons Hin. rewrite filter_cons. cbn [fst].
  apply elem_of_cons in Hin as [[= -> ->]|Hin].
  - rewrite decide_True by done. f_equal.
    destruct (filter _ d) as [|[k' v'] l] eqn:Hf; [done|].
    assert ((k', v') ∈ filter (λ e, e.1 = k0) d) as Hin'
      by (rewrite Hf; apply list_elem_of_here).
    apply list_elem_of_filter in Hin' as [Hk' Hin']. cbn in Hk'. subst k'.
    destruct Hk0. by apply (list_elem_of_fmap_2 fst) in Hin'.
  - rewrite decide_False; [by apply IH|].
    intros ->. destruct Hk0. by apply (list_elem_of_fmap_2 fst) in Hin.
Qed.

Lemma extract_all_get_NoDup (fs : filesystem) (configs : dict Audit.config)
    lang cfg :
  NoDup (dict_keys configs) → (lang, cfg) ∈ configs →
  dict_get lang (result (Audit.extract_all fs configs))
  = Some (result (Audit.extract_methods fs lang cfg)).
Proof.
  intros Hnd Hin. rewrite extract_all_get.
  by rewrite (filter_key_NoDup configs lang cfg).
Qed.

(** X9: in a table without repeated names, a language whose text is
    unavailable is given the empty set, so it misses the whole expected
    surface; and the audit then fails exactly when some language declares
    anything at all. *)
Theorem unavailable_language_misses_everything
    (configs : dict Audit.config) (fs : filesystem) lang cfg :
  NoDup (dict_keys configs) →
  (lang, cfg) ∈ configs →
  fs (Audit.file cfg) = None →
  let all_methods := result (Audit.extract_all fs configs) in
  let expected := Audit.expected_surface all_methods in
  dict_get lang all_methods = Some ∅
  ∧ list_to_set (Audit.missing_of expected ∅) = expected
  ∧ length (Audit.missing_of expected ∅) = size expected
  ∧ (result (Audit.main_with configs fs) = 1 ↔ expected ≠ ∅).
Proof.
  intros Hnd Hin Hfile all_methods expected.
  assert (dict_get lang all_methods = Some ∅) as Hget.
  { unfold all_methods. rewrite (extract_all_get_NoDup fs configs lang cfg)
      by done.
    unfold Audit.extract_methods. by rewrite Hfile, result_bind. }
  assert (expected ∖ ∅ = expected) as Hdiff.
  { apply set_eq. intros x. rewrite elem_of_difference.
    split; [tauto|]. intros Hx. split; [done|]. apply not_elem_of_empty. }
  split_and!; [done| | |].
  - by rewrite missing_of_set.
  - unfold Audit.missing_of, sorted.
    by rewrite merge_sort_Permutation, Hdiff.
  - rewrite main_with_result. fold all_methods. rewrite audit_fails_iff.
    fold expected. split.
    + intros (lang' & methods & Hget' & Hmiss) Hempty. apply Hmiss.
      unfold Audit.missing_of. rewrite Hempty.
      replace (∅ ∖ methods) with (∅ : gset string); [by rewrite elements_empty|].
      apply set_eq. intros x. rewrite elem_of_difference.
      split; [by intros ?%not_elem_of_empty|tauto].
    + intros Hne. exists lang, ∅. split; [done|].
      intros Hnil. apply Hne.
      apply (f_equal (list_to_set (C:=gset string))) in Hnil.
      by rewrite missing_of_set, Hdiff in Hnil.
Qed.

Lemma unavailable_language_misses_everything_witness :
  Audit.missing_of
    (Audit.expected_surface
       (result (Audit.extract_all abc_fs_without_b abc_configs))) ∅
  = ["bar"; "baz"; "foo"]
  ∧ result (Audit.main_with abc_configs abc_fs_without_b) = 1.
Proof.
  assert (("B", Audit.Config "b.py" Audit.python_pattern ∅ "snake_case")
          ∈ abc_configs) as HB by (apply list_elem_of_In; cbn; auto).
  assert (NoDup (dict_keys abc_configs)) as Hnd.
  { apply NoDup_ListNoDup. vm_compute.
    repeat (constructor; [cbn; intuition discriminate|]). constructor. }
  destruct (unavailable_language_misses_everything
              abc_configs abc_fs_without_b "B" _ Hnd HB eq_refl)
    as (_ & _ & _ & Hfail).
  split; [by vm_compute|]. apply Hfail. by vm_compute.
Defined.

(** ** The audit: no language is privileged *)

Lemma dict_set_fresh {V} k (v : V) (d : dict V) :
  k ∉ dict_keys d → dict_set k v d = d ++ [(k, v)].
Proof.
  unfold dict_keys. induction d as [|[k0 v0] d IH]; [done|].
  rewrite fmap_cons. cbn [fst]. intros Hk. cbn [dict_set].
  destruct (String.eqb_spec k0 k) as [->|Hne].
  - destruct Hk. apply list_elem_of_here.
  - rewrite IH; [done|]. intros ?. apply Hk. by apply elem_of_cons; right.
Qed.

Lemma extract_all_fmap (fs : filesystem) (configs : dict Audit.config) :
  NoDup (dict_keys configs) →
  result (Audit.extract_all fs configs)
  = (λ e, (e.1, result (Audit.extract_methods fs e.1 e.2))) <$> configs.
Proof.
  rewrite extract_all_result. unfold dict_keys.
  induction configs as [|[lang cfg] configs IH] using rev_ind; [done|].
  rewrite fmap_app. intros (Hnd & Hfresh & _)%NoDup_app.
  rewrite foldl_snoc, fmap_app, IH by done. cbn [fmap list_fmap fst snd].
  apply dict_set_fresh. unfold dict_keys.
  rewrite <- list_fmap_compose. intros Hin.
  apply (Hfresh lang); [done|apply list_elem_of_here].
Qed.

Lemma dict_get_NoDup_elem {V} (d : dict V) k v :
  NoDup (dict_keys d) → dict_get k d = Some v ↔ (k, v) ∈ d.
Proof.
  intros Hnd. split; [apply dict_get_elem|].
  intros Hin. pose proof (filter_key_NoDup d k v Hnd Hin) as Hf.
  clear Hnd. induction d as [|[k0 v0] d IH]; [by apply elem_of_nil in Hin|].
  rewrite filter_cons in Hf. cbn [fst] in Hf. cbn.
  destruct (String.eqb_spec k0 k) as [->|Hne].
  - rewrite decide_True in Hf by done. by injection Hf as ->.
  - rewrite decide_False in Hf by done.
    apply elem_of_cons in Hin as [[= ? ?]|Hin]; [congruence|]. by apply IH.
Qed.

(** X10: the audit treats the languages alike: for a table without repeated
    names, listing the profiles in another order changes neither the set
    found for a language, nor the expected surface, nor the exit status. *)
Theorem audit_order_independent
    (configs configs' : dict Audit.config) (fs : filesystem) :
  NoDup (dict_keys configs) →
  configs ≡ₚ configs' →
  let all_methods := result (Audit.extract_all fs configs) in
  let all_methods' := result (Audit.extract_all fs configs') in
  (∀ lang, dict_get lang all_methods' = dict_get lang all_methods)
  ∧ Audit.expected_surface all_methods' = Audit.expected_surface all_methods
  ∧ result (Audit.main_with configs' fs) = result (Audit.main_with configs fs).
Proof.
  intros Hnd Hperm all_methods all_methods'.
  assert (NoDup (dict_keys configs')) as Hnd'.
  { unfold dict_keys. by rewrite <- Hperm. }
  assert (all_methods ≡ₚ all_methods') as Hall.
  { unfold all_methods, all_methods'. rewrite !extract_all_fmap by done.
    by rewrite Hperm. }
  assert (∀ lang, dict_get lang all_methods' = dict_get lang all_methods)
    as Hget.
  { intros lang. apply option_eq. intros methods.
    rewrite !dict_get_NoDup_elem by apply extract_all_NoDup.
    by rewrite Hall. }
  assert (Audit.expected_surface all_methods'
          = Audit.expected_surface all_methods) as Hexp.
  { rewrite !expected_surface_union. unfold dict_values.
    by rewrite Hall. }
  split_and!; [done..|].
  rewrite !main_with_result. fold all_methods all_methods'.
  assert (∀ d, result (Audit.audit d) = 0 ∨ result (Audit.audit d) = 1)
    as Hbit.
  { intros d. rewrite audit_result. destruct (existsb _ _); auto. }
  assert (result (Audit.audit all_methods') = 1
          ↔ result (Audit.audit all_methods) = 1) as Hiff.
  { rewrite !audit_fails_iff, Hexp. by setoid_rewrite Hget. }
  destruct (Hbit all_methods) as [H|H], (Hbit all_methods') as [H'|H'];
    try congruence.
  - apply Hiff in H'. congruence.
  - apply Hiff in H. congruence.
Qed.

Lemma audit_order_independent_witness :
  result (Audit.main_with (reverse abc_configs) abc_fs)
  = result (Audit.main_with abc_configs abc_fs).
Proof.
  assert (NoDup (dict_keys abc_configs)) as Hnd.
  { apply NoDup_ListNoDup. vm_compute.
    repeat (constructor; [cbn; intuition discriminate|]). constructor. }
  apply (audit_order_independent abc_configs (reverse abc_configs) abc_fs
           Hnd).
  symmetry. apply reverse_Permutation.
Defined.

(** ** The compatibility check: what is printed *)

Lemma report_output missing extra mismatches :
  output (Compat.report missing extra mismatches) =
  (if truthy_list missing
   then ["❌ MISSING METHODS (in reference but not in generated):"]
        ++ ((λ method, "   - " +:+ method) <$> missing) ++ [""]
   else [])
  ++ (if truthy_list extra
      then ["ℹ️  EXTRA METHODS (in generated but not in reference):"]
           ++ ((λ method, "   + " +:+ method) <$> extra) ++ [""]
      else [])
  ++ (if truthy_list mismatches
      then ["⚠️  SIGNATURE MISMATCHES:"]
           ++ ((λ mismatch, "   ! " +:+ mismatch) <$> mismatches) ++ [""]
      else [])
  ++ (if truthy_list missing || truthy_list mismatches
      then ["❌ API compatibility issues found!";
            "   Please review the missing methods and mismatches above."]
      else ["✅ API compatibility check passed!";
            "   All reference methods are present with compatible signatures."]).
Proof.
  unfold Compat.report.
  destruct (truthy_list missing), (truthy_list extra),
    (truthy_list mismatches);
    repeat (rewrite ?output_bind, ?result_bind, ?for_each_print_output;
            cbn [negb orb app]);
    rewrite ?app_nil_r, <- ?app_assoc; reflexivity.
Qed.

Lemma not_in_section (line header pre : string) (xs : list string)
    (shown : bool) :
  line ≠ header → (∀ x, line ≠ pre +:+ x) → line ≠ "" →
  line ∉ (if shown
          then [header] ++ ((λ x, pre +:+ x) <$> xs) ++ [""]
          else []).
Proof.
  intros Hh Hp He. destruct shown; [|apply not_elem_of_nil].
  rewrite !elem_of_app, !list_elem_of_singleton, list_elem_of_fmap.
  intros [?|[(x & ? & _)|?]]; [done| |done]. by eapply Hp.
Qed.

Lemma closing_line_iff (line : string) missing extra mismatches :
  line ≠ "" →
  (∀ x, line ≠ "   - " +:+ x) →
  (∀ x, line ≠ "   + " +:+ x) →
  (∀ x, line ≠ "   ! " +:+ x) →
  line ≠ "❌ MISSING METHODS (in reference but not in generated):" →
  line ≠ "ℹ️  EXTRA METHODS (in generated but not in reference):" →
  line ≠ "⚠️  SIGNATURE MISMATCHES:" →
  line ∈ output (Compat.report missing extra mismatches) ↔
  line ∈ (if truthy_list missing || truthy_list mismatches
          then ["❌ API compatibility issues found!";
                "   Please review the missing methods and mismatches above."]
          else ["✅ API compatibility check passed!";
                "   All reference methods are present with compatible signatures."]).
Proof.
  intros He H1 H2 H3 H4 H5 H6. rewrite report_output, !elem_of_app.
  pose proof (not_in_section line _ "   - " missing (truthy_list missing)
                H4 H1 He).
  pose proof (not_in_section line _ "   + " extra (truthy_list extra)
                H5 H2 He).
  pose proof (not_in_section line _ "   ! " mismatches
                (truthy_list mismatches) H6 H3 He).
  tauto.
Qed.

(** X11: the report of the compatibility check leaves no finding out: every
    missing name, every extra name and every mismatch entry has its line,
    without the limit of ten that the audit applies; and the closing line
    says passed exactly when the status is 0. *)
Theorem report_prints_every_finding missing extra mismatches :
  let lines := output (Compat.report missing extra mismatches) in
  (∀ method, method ∈ missing → "   - " +:+ method ∈ lines)
  ∧ (∀ method, method ∈ extra → "   + " +:+ method ∈ lines)
  ∧ (∀ mismatch, mismatch ∈ mismatches → "   ! " +:+ mismatch ∈ lines)
  ∧ ("✅ API compatibility check passed!" ∈ lines
     ↔ result (Compat.report missing extra mismatches) = 0)
  ∧ ("❌ API compatibility issues found!" ∈ lines
     ↔ result (Compat.report missing extra mismatches) = 1).
Proof.
  intros lines. unfold lines. split_and!.
  - rewrite report_output.
    intros method Hm. destruct missing; [by apply elem_of_nil in Hm|].
    cbn [truthy_list]. rewrite !elem_of_app. left. right. left.
    by apply (list_elem_of_fmap_2 (λ method, "   - " +:+ method)).
  - rewrite report_output.
    intros method Hm. destruct extra; [by apply elem_of_nil in Hm|].
    cbn [truthy_list]. rewrite !elem_of_app. right. left. right. left.
    by apply (list_elem_of_fmap_2 (λ method, "   + " +:+ method)).
  - rewrite report_output.
    intros mismatch Hm. destruct mismatches; [by apply elem_of_nil in Hm|].
    cbn [truthy_list]. rewrite !elem_of_app. right. right. left. right. left.
    by apply (list_elem_of_fmap_2 (λ mismatch, "   ! " +:+ mismatch)).
  - rewrite closing_line_iff, report_result; try done.
    destruct (_ || _).
    + split; [|done]. intros [H|[H|[]%elem_of_nil]%elem_of_cons]%elem_of_cons;
        discriminate H.
    + split; [done|]. intros _. apply list_elem_of_here.
  - rewrite closing_line_iff, report_result; try done.
    destruct (_ || _).
    + split; [done|]. intros _. apply list_elem_of_here.
    + split; [|done]. intros [H|[H|[]%elem_of_nil]%elem_of_cons]%elem_of_cons;
        discriminate H.
Qed.

(** * The mock server *)

Section mock_server.
Import Mock.

Lemma dict_get_None_keys {V} k (d : dict V) :
  dict_get k d = None ↔ k ∉ dict_keys d.
Proof.
  induction d as [|[k0 v0] d IH]; cbn.
  - split; [intros _; apply not_elem_of_nil|done].
  - rewrite not_elem_of_cons. destruct (String.eqb_spec k0 k) as [->|Hk].
    + split; [done|]. by intros [? _].
    + rewrite IH. split; [by split|by intros [_ ?]].
Qed.

(** ** Texts of ASCII digits *)

Lemma is_digit_code c :
  Char.is_digit c = true → (48 ≤ N_of_ascii c ≤ 57)%N.
Proof.
  unfold Char.is_digit, Char.between.
  intros [H1 H2]%andb_true_iff. apply N.leb_le in H1, H2. lia.
Qed.

Lemma decimal_ascii b : (48 ≤ b ≤ 57)%N → decimal b = Some (b - 48)%N.
Proof.
  intros Hb. unfold decimal, decimal_runs. cbn [List.find].
  replace ((48 <=? b)%N && (b <? 48 + 10)%N) with true; [done|].
  symmetry. apply andb_true_iff. split; [apply N.leb_le|apply N.ltb_lt]; lia.
Qed.

Lemma is_digit_ascii b : (48 ≤ b ≤ 57)%N → is_digit b = true.
Proof. intros Hb. unfold is_digit. by rewrite decimal_ascii. Qed.

Lemma code_points_ascii s :
  all_digits s = true →
  code_points 0 0 s = Some (N_of_ascii <$> list_ascii_of_string s).
Proof.
  induction s as [|c s IH]; [done|]. cbn [all_digits].
  intros [Hc Hs]%andb_true_iff. apply is_digit_code in Hc.
  cbn [code_points list_ascii_of_string fmap list_fmap].
  replace (N_of_ascii c <? 128)%N with true by (symmetry; apply N.ltb_lt; lia).
  by rewrite IH.
Qed.

Lemma length_list_ascii s :
  length (list_ascii_of_string s) = String.length s.
Proof. induction s as [|c s IH]; [done|]. cbn. by rewrite IH. Qed.

Lemma isdigit_ascii s : s ≠ "" → all_digits s = true → isdigit s = true.
Proof.
  intros Hne Hs. unfold isdigit. rewrite code_points_ascii by done.
  destruct s as [|c s]; [done|]. clear Hne.
  change (N_of_ascii <$> list_ascii_of_string (String c s))
    with (N_of_ascii c :: (N_of_ascii <$> list_ascii_of_string s)).
  revert c Hs. induction s as [|c' s IH]; intros c; cbn [all_digits].
  - intros [Hc _]%andb_true_iff. cbn.
    by rewrite is_digit_ascii by by apply is_digit_code.
  - intros [Hc Hs]%andb_true_iff. specialize (IH c' Hs).
    cbn [list_ascii_of_string fmap list_fmap forallb] in *.
    by rewrite is_digit_ascii by by apply is_digit_code.
Qed.

Lemma mapM_decimal_ascii s :
  all_digits s = true →
  mapM decimal (N_of_ascii <$> list_ascii_of_string s)
  = Some ((λ c, N_of_ascii c - 48)%N <$> list_ascii_of_string s).
Proof.
  induction s as [|c s IH]; [done|]. cbn [all_digits].
  intros [Hc Hs]%andb_true_iff.
  cbn [list_ascii_of_string fmap list_fmap mapM].
  rewrite decimal_ascii by by apply is_digit_code.
  cbn. by rewrite (IH Hs).
Qed.

Lemma foldl_digits_value acc s :
  foldl (λ acc d, 10 * acc + d)%N acc
    ((λ c, N_of_ascii c - 48)%N <$> list_ascii_of_string s)
  = digits_value acc s.
Proof. revert acc. induction s as [|c s IH]; intros acc; [done|]. apply IH. Qed.

Lemma int_ascii max_str_digits s :
  all_digits s = true →
  int max_str_digits s =
  if decide (str_digits_check_threshold < String.length s
             ∧ 0 < max_str_digits < String.length s)
  then None
  else Some (Z.of_N (digits_value 0 s)).
Proof.
  intros Hs. unfold int. rewrite code_points_ascii by done. cbn.
  rewrite length_fmap, length_list_ascii. case_decide; [done|].
  rewrite mapM_decimal_ascii by done. cbn. by rewrite foldl_digits_value.
Qed.

Lemma block_number_default max_str_digits :
  block_number max_str_digits (JStr "12345") = Some 12345%Z.
Proof.
  unfold block_number. rewrite isdigit_ascii, int_ascii by done.
  rewrite decide_False; [done|]. cbn. unfold str_digits_check_threshold. lia.
Qed.

Lemma pretty_N_char_digit d :
  (d < 10)%N → N_of_ascii (pretty_N_char d) = (48 + d)%N.
Proof.
  intros H.
  assert (d = 0 ∨ d = 1 ∨ d = 2 ∨ d = 3 ∨ d = 4 ∨ d = 5 ∨ d = 6 ∨ d = 7
          ∨ d = 8 ∨ d = 9)%N as Hd by lia.
  destruct_or!; by subst.
Qed.

Lemma all_digits_pretty_N_go x s :
  all_digits s = true → all_digits (pretty_N_go x s) = true.
Proof.
  revert s. induction (N.lt_wf_0 x) as [x _ IH]; intros s Hs.
  assert (x = 0 ∨ 0 < x)%N as [->|Hx] by lia; [by rewrite pretty_N_go_0|].
  rewrite pretty_N_go_step by done.
  apply IH; [apply N.div_lt; lia|]. cbn. rewrite Hs, andb_true_r.
  unfold Char.is_digit, Char.between.
  rewrite pretty_N_char_digit by (apply N.mod_lt; lia).
  assert (x `mod` 10 < 10)%N as Hm by (apply N.mod_lt; lia).
  revert Hm. generalize (x `mod` 10)%N. intros d Hd.
  apply andb_true_iff; split; apply N.leb_le; lia.
Qed.

Lemma truthy_pretty_N_go x s :
  truthy s = true → truthy (pretty_N_go x s) = true.
Proof.
  revert s. induction (N.lt_wf_0 x) as [x _ IH]; intros s Hs.
  assert (x = 0 ∨ 0 < x)%N as [->|Hx] by lia; [by rewrite pretty_N_go_0|].
  rewrite pretty_N_go_step by done. apply IH; [apply N.div_lt; lia|done].
Qed.

Lemma digits_value_pretty_N_go x s :
  digits_value 0 (pretty_N_go x s) = digits_value x s.
Proof.
  revert s. induction (N.lt_wf_0 x) as [x _ IH]; intros s.
  assert (x = 0 ∨ 0 < x)%N as [->|Hx] by lia; [by rewrite pretty_N_go_0|].
  rewrite pretty_N_go_step by done.
  rewrite IH by (apply N.div_lt; lia). cbn [digits_value]. f_equal.
  rewrite pretty_N_char_digit by (apply N.mod_lt; lia).
  assert (x = 10 * x `div` 10 + x `mod` 10)%N as Hx' by (apply N.div_mod; lia).
  revert Hx'. generalize (x `div` 10)%N (x `mod` 10)%N. intros q r. lia.
Qed.

Lemma pretty_N_digits (n : N) :
  pretty n ≠ "" ∧ all_digits (pretty n) = true
  ∧ digits_value 0 (pretty n) = n.
Proof.
  unfold pretty, pretty_N. case_decide as Hn; [by subst|].
  split_and!.
  - apply N.neq_0_lt_0 in Hn. rewrite pretty_N_go_step by done.
    intros Heq.
    pose proof (truthy_pretty_N_go (n `div` 10)
                  (String (pretty_N_char (n `mod` 10)) "") eq_refl) as Ht.
    by rewrite Heq in Ht.
  - by apply all_digits_pretty_N_go.
  - apply digits_value_pretty_N_go.
Qed.

(** ** The handlers, one by one *)

(** Every handler of the table, on every body: an answer has status 200,
    the two headers and a document that repeats the status. *)
Lemma handlers_answer_ok max_str_digits :
  Forall (λ e, ∀ body r, e.2 body = Some r → answer_ok 200 r)
    (handlers max_str_digits).
Proof.
  unfold handlers.
  repeat first [apply List.Forall_nil | apply List.Forall_cons].
  all: cbv beta; cbn [snd]; intros body r.
  all: destruct body; cbn; try discriminate.
  all: try destruct (block_number _ _); cbn; try discriminate.
  all: intros [= <-]; split; [done|split; [done|by eexists]].
Qed.


(** Which handler raises, and on which body. *)
Lemma handlers_raise max_str_digits :
  Forall (λ e, ∀ body,
            e.2 body = None ↔
            ∃ key, dict_get e.1 key_read = Some key
              ∧ match body with
                | JObj fields =>
                    e.1 = "/getBlock"
                    ∧ ∃ v, dict_get key fields = Some v
                           ∧ block_number max_str_digits v = None
                | _ => True
                end)
    (handlers max_str_digits).
Proof.
  unfold handlers.
  repeat first [apply List.Forall_nil | apply List.Forall_cons].
  all: cbv beta; cbn [fst snd]; intros body.
  all: try (split; [by destruct body|by intros (key & [=] & _)]).
  all: try (destruct body; cbn;
            (split; [try done; by eexists|
                     try done; by intros (key & _ & [=] & _)])).
  destruct body as [| | | | | |fields];
    try (split; [intros _; by exists "BlockNumber"|done]).
  cbn. split.
  - destruct (dict_get "BlockNumber" fields) as [v|] eqn:Hv; cbn.
    + destruct (block_number _ v) eqn:Hb; cbn; [done|]. intros _.
      exists "BlockNumber". split; [done|]. split; [done|]. by exists v.
    + by rewrite block_number_default.
  - intros (key & [= <-] & _ & v & Hv & Hb). by rewrite Hv, Hb.
Qed.

Lemma handlers_read_one_key max_str_digits :
  Forall (λ e, ∀ fields fields',
            (∀ key, dict_get e.1 key_read = Some key →
                    dict_get key fields = dict_get key fields') →
            e.2 (JObj fields) = e.2 (JObj fields'))
    (handlers max_str_digits).
Proof.
  unfold handlers.
  repeat first [apply List.Forall_nil | apply List.Forall_cons].
  all: cbv beta; cbn [fst snd]; intros fields fields' H; cbn.
  all: try reflexivity.
  all: by rewrite (H _ eq_refl).
Qed.

Lemma handlers_ignore_body max_str_digits :
  Forall (λ e, dict_get e.1 key_read = None →
               ∀ body body', e.2 body = e.2 body')
    (handlers max_str_digits).
Proof.
  unfold handlers.
  repeat first [apply List.Forall_nil | apply List.Forall_cons].
  all: cbv beta; cbn [fst snd]; intros H body body'.
  all: first [discriminate H | reflexivity].
Qed.

Lemma or_empty_object fields : or_empty (Some (JObj fields)) = JObj fields.
Proof. by destruct fields. Qed.

Lemma or_empty_falsy v : truthy_json v = false → or_empty (Some v) = JObj [].
Proof. intros H. cbn. by rewrite H. Qed.

Lemma do_POST_handler max_str_digits path body handler :
  dict_get path (handlers max_str_digits) = Some handler →
  do_POST max_str_digits path body = handler (or_empty body)
  ∧ (path, handler) ∈ handlers max_str_digits.
Proof.
  intros H. unfold do_POST. rewrite H. split; [done|]. by apply dict_get_elem.
Qed.

Lemma key_read_handled max_str_digits path key :
  dict_get path key_read = Some key →
  is_Some (dict_get path (handlers max_str_digits)).
Proof.
  intros H%dict_get_elem. unfold key_read in H.
  repeat (apply elem_of_cons in H as [[= -> ->]|H]; [by eexists|]).
  by apply elem_of_nil in H.
Qed.

(** X12: the table routes 24 distinct paths.  Whatever the path and the
    body, an answer of [do_POST] carries status 200 when the path is in the
    table and 404 when it is not, never another one; its document repeats
    that status under "Result"; and an unknown path is always answered, with
    the path named in the message. *)
Theorem do_POST_status max_str_digits path body :
  let endpoints := dict_keys (handlers max_str_digits) in
  let code := (if decide (path ∈ endpoints) then 200 else 404)%Z in
  length endpoints = 24
  ∧ NoDup endpoints
  ∧ (∀ r, do_POST max_str_digits path body = Some r →
          status_code r = code
          ∧ headers r = [("Content-Type", "application/json");
                         ("Access-Control-Allow-Origin", "*")]
          ∧ ∃ answer, data r = envelope code answer)
  ∧ (path ∉ endpoints →
     do_POST max_str_digits path body
     = _send_response 404
         (envelope 404 (JStr ("Endpoint not found: " +:+ path)))).
Proof.
  intros endpoints code. split; [done|]. split.
  { apply (bool_decide_unpack _). by vm_compute. }
  split.
  - intros r Hr. unfold code.
    destruct (dict_get path (handlers max_str_digits)) as [handler|] eqn:Hh.
    + destruct (do_POST_handler _ _ body _ Hh) as [Heq Hin].
      rewrite decide_True
        by (apply list_elem_of_fmap; by exists (path, handler)).
      pose proof (handlers_answer_ok max_str_digits) as Hall.
      rewrite Forall_forall in Hall.
      apply (Hall _ Hin (or_empty body)). cbn [snd]. by rewrite <- Heq.
    + rewrite decide_False by by apply dict_get_None_keys.
      unfold do_POST in Hr. rewrite Hh in Hr. injection Hr as <-.
      split; [done|]. split; [done|]. by eexists.
  - intros Hn%dict_get_None_keys. unfold do_POST.
    by rewrite Hn.
Qed.

Lemma do_POST_None max_str_digits path body :
  do_POST max_str_digits path body = None ↔
  ∃ key, dict_get path key_read = Some key
    ∧ match or_empty body with
      | JObj fields =>
          path = "/getBlock"
          ∧ ∃ v, dict_get key fields = Some v
                 ∧ block_number max_str_digits v = None
      | _ => True
      end.
Proof.
  destruct (dict_get path (handlers max_str_digits)) as [handler|] eqn:Hh.
  - destruct (do_POST_handler _ _ body _ Hh) as [-> Hin].
    pose proof (handlers_raise max_str_digits) as Hall.
    rewrite Forall_forall in Hall. by rewrite (Hall _ Hin (or_empty body)).
  - unfold do_POST. rewrite Hh. split; [done|].
    intros (key & Hk & _). apply (key_read_handled max_str_digits) in Hk.
    rewrite Hh in Hk. by destruct Hk.
Qed.



(** X14: a request without content is always answered, whatever the path;
    and a body that is a false value (null, false, zero, the empty string,
    list or object) is answered as a request without content. *)
Theorem do_POST_without_content max_str_digits path :
  (∀ v, truthy_json v = false →
        do_POST max_str_digits path (Some v)
        = do_POST max_str_digits path None)
  ∧ is_Some (do_POST max_str_digits path None).
Proof.
  split.
  - intros v Hv. unfold do_POST. by rewrite (or_empty_falsy v Hv).
  - destruct (do_POST max_str_digits path None) eqn:Hr; [by eexists|].
    apply do_POST_None in Hr as (key & _ & _ & v & [=] & _).
Qed.

(** X15: a handler looks at one key of the body at most: two objects that
    agree on the key of the path are answered alike, and a path whose
    handler reads no key is answered alike whatever the body. *)
Theorem do_POST_reads_one_key max_str_digits path :
  (∀ fields fields',
     (∀ key, dict_get path key_read = Some key →
             dict_get key fields = dict_get key fields') →
     do_POST max_str_digits path (Some (JObj fields))
     = do_POST max_str_digits path (Some (JObj fields')))
  ∧ (dict_get path key_read = None →
     ∀ body body',
       do_POST max_str_digits path body = do_POST max_str_digits path body').
Proof.
  destruct (dict_get path (handlers max_str_digits)) as [handler|] eqn:Hh.
  - pose proof (handlers_read_one_key max_str_digits) as Hone.
    pose proof (handlers_ignore_body max_str_digits) as Hig.
    rewrite Forall_forall in Hone, Hig. split.
    + intros fields fields' H.
      destruct (do_POST_handler _ _ (Some (JObj fields)) _ Hh) as [-> Hin].
      destruct (do_POST_handler _ _ (Some (JObj fields')) _ Hh) as [-> _].
      rewrite !or_empty_object. by apply (Hone _ Hin).
    + intros H body body'.
      destruct (do_POST_handler _ _ body _ Hh) as [-> Hin].
      destruct (do_POST_handler _ _ body' _ Hh) as [-> _].
      by apply (Hig _ Hin).
  - unfold do_POST. by rewrite Hh.
Qed.

(** ** Block numbers *)

Lemma block_number_nonneg max_str_digits v n :
  block_number max_str_digits v = Some n → (0 ≤ n)%Z.
Proof.
  unfold block_number. destruct v as [| | | |s| |]; try done.
  destruct (isdigit s); [|intros [= <-]; lia].
  unfold int. destruct (code_points 0 0 s) as [cps|]; cbn; [|done].
  case_decide; [done|]. destruct (mapM decimal cps); cbn; [|done].
  intros [= <-]. lia.
Qed.

Lemma get_block_answer max_str_digits fields :
  answer_field "BlockNumber"
    (do_POST max_str_digits "/getBlock" (Some (JObj fields)))
  = JInt <$> block_number max_str_digits
               (default (JStr "12345") (dict_get "BlockNumber" fields)).
Proof.
  change (do_POST max_str_digits "/getBlock" (Some (JObj fields)))
    with (_handle_get_block max_str_digits (or_empty (Some (JObj fields)))).
  rewrite or_empty_object. unfold _handle_get_block. cbn [get].
  destruct (dict_get "BlockNumber" fields) as [v|]; cbn [default from_option id].
  - cbn. by destruct (block_number _ v).
  - cbn. by rewrite block_number_default.
Qed.

(** X16: the block number of the answer of /getBlock.  Without a
    BlockNumber in the request, or with a string that [isdigit] rejects (the
    empty string, a sign, a space, a letter), it is 12345.  A non-empty
    string of ASCII digits within the conversion limit comes back as the
    number it writes, leading zeros ignored; so a natural number sent in
    decimal comes back as that number.  A decimal digit of another script
    counts with its value.  And an answer never holds anything but a
    non-negative integer. *)
Theorem get_block_number max_str_digits fields :
  let answer :=
    answer_field "BlockNumber"
      (do_POST max_str_digits "/getBlock" (Some (JObj fields))) in
  (dict_get "BlockNumber" fields = None → answer = Some (JInt 12345))
  ∧ (∀ s, dict_get "BlockNumber" fields = Some (JStr s) →
          isdigit s = false → answer = Some (JInt 12345))
  ∧ (∀ s, dict_get "BlockNumber" fields = Some (JStr s) →
          s ≠ "" → all_digits s = true →
          (max_str_digits = 0 ∨ String.length s ≤ max_str_digits)%nat →
          answer = Some (JInt (Z.of_N (digits_value 0 s))))
  ∧ (∀ n : N,
       dict_get "BlockNumber" fields = Some (JStr (pretty n)) →
       (max_str_digits = 0 ∨ String.length (pretty n) ≤ max_str_digits)%nat →
       answer = Some (JInt (Z.of_N n)))
  ∧ (dict_get "BlockNumber" fields = Some (JStr "٣") →
     answer = Some (JInt 3))
  ∧ (∀ v, answer = Some v → ∃ n, v = JInt n ∧ (0 ≤ n)%Z).
Proof.
  intros answer. unfold answer. rewrite get_block_answer.
  assert (∀ s, dict_get "BlockNumber" fields = Some (JStr s) →
            s ≠ "" → all_digits s = true →
            (max_str_digits = 0 ∨ String.length s ≤ max_str_digits)%nat →
            JInt <$> block_number max_str_digits
                       (default (JStr "12345")
                          (dict_get "BlockNumber" fields))
            = Some (JInt (Z.of_N (digits_value 0 s)))) as Hascii.
  { intros s -> Hne Hs Hl. cbn. unfold block_number.
    rewrite isdigit_ascii, int_ascii by done.
    by rewrite decide_False by lia. }
  split_and!.
  - intros ->. cbn [default from_option]. by rewrite block_number_default.
  - intros s -> Hs. cbn. unfold block_number. by rewrite Hs.
  - exact Hascii.
  - intros n Hn Hl. destruct (pretty_N_digits n) as (Hne & Hd & Hv).
    by rewrite (Hascii _ Hn Hne Hd Hl), Hv.
  - by intros ->.
  - intros v.
    destruct (block_number _ _) as [n|] eqn:Hn; cbn; [|done].
    intros [= <-]. exists n. split; [done|]. by eapply block_number_nonneg.
Qed.

End mock_server.

(** * The cross-language runner *)

(** X17: the runner reports success whatever it finds: the status is 0 for
    every file system; the three lines of the banner come first; and what is
    printed depends on the existence of the scenarios file only, never on
    its content. *)
Theorem run_tests_never_fails (fs fs' : filesystem) :
  result (RunTests.main fs) = 0
  ∧ take 3 (output (RunTests.main fs))
    = [RunTests.Colors.BLUE +:+ "Cross-Language Validation Tests"
       +:+ RunTests.Colors.NC;
       str_repeat "=" 40; ""]
  ∧ (length (output (RunTests.main fs))
     = match fs RunTests.scenarios_file with Some _ => 5 | None => 18 end)
  ∧ ((is_Some (fs RunTests.scenarios_file)
      ↔ is_Some (fs' RunTests.scenarios_file)) →
     RunTests.main fs = RunTests.main fs').
Proof.
  unfold RunTests.main.
  destruct (fs RunTests.scenarios_file) as [content|] eqn:Hfs.
  - split_and!; try reflexivity.
    intros [H _]. destruct (H ltac:(by eexists)) as [content' ->].
    reflexivity.
  - split_and!; try reflexivity.
    intros [_ H]. destruct (fs' RunTests.scenarios_file) as [content'|];
      [|reflexivity].
    destruct (H ltac:(by eexists)) as [? [=]].
Qed.
